(** * cronjobs: scheduling database jobs from files carrying a cron marker

    A shallow embedding of [cronjobs.go] (package [cronjobs] of
    db-journey/cronjobs) and the properties of its registration, execution
    and reporting paths.

    Layout:
    - [GoStrings]: the string helpers the package calls ([strings.TrimSuffix],
      [filepath.Ext]) as byte-list functions;
    - [Regexp]: a backtracking matcher with leftmost-first priorities for the
      fragment of regular expressions [cronRE] is written in;
    - [Cronjobs]: the package itself. Sequential code ([New], [ReadFiles]) is
      a function on the scheduler value; the goroutines ([runFunc] bodies,
      [logger], the callers of [Start] and [Stop]) are an executable step
      function over a world state, one label per atomic action. *)

From Stdlib Require Import ZArith Ascii String.
From stdpp Require Import base list strings.

Local Open Scope Z_scope.
Local Open Scope nat_scope.

(** Go strings are byte sequences; the helpers work on [list ascii]. *)
Abbreviation bytes := (list ascii).
Abbreviation str := String.string_of_list_ascii.
Abbreviation unstr := String.list_ascii_of_string.

(* ===================================================================== *)
(** ** Go string helpers *)
(* ===================================================================== *)
Module GoStrings.

(** [strings.HasSuffix(s, suffix)]:
    [len(s) >= len(suffix) && s[len(s)-len(suffix):] == suffix]. *)
Definition HasSuffix (s suffix : bytes) : bool :=
  bool_decide (length suffix ≤ length s) &&
  bool_decide (drop (length s - length suffix) s = suffix).

(** [strings.TrimSuffix(s, suffix)]: [s] without the trailing [suffix],
    or [s] itself when it does not end in [suffix]. *)
Definition TrimSuffix (s suffix : bytes) : bytes :=
  if HasSuffix s suffix then take (length s - length suffix) s else s.

(** The loop of [filepath.Ext], walking from the last byte down:
<<
    for i := len(path) - 1; i >= 0 && !os.IsPathSeparator(path[i]); i-- {
        if path[i] == '.' { return path[i:] }
    }
    return ""
>>
    [back] is the reversed prefix still to visit, [seen] the suffix
    already walked over. *)
Fixpoint ext_scan (back seen : bytes) : bytes :=
  match back with
  | [] => []
  | c :: back' =>
      if decide (c = "/"%char) then []
      else if decide (c = "."%char) then c :: seen
      else ext_scan back' (c :: seen)
  end.

Definition Ext (path : bytes) : bytes := ext_scan (reverse path) [].

End GoStrings.

(* ===================================================================== *)
(** ** Regular expressions *)
(* ===================================================================== *)
Module Regexp.

(** The constructs [cronRE] uses. A class is a predicate on bytes: the
    classes of [cronRE] are ASCII-only or "anything but newline", and a
    newline byte never occurs inside a multi-byte UTF-8 sequence, so
    matching byte by byte finds the same boundaries as matching rune by
    rune. *)
Inductive regex : Type :=
| BeginText                          (* ^  (no multi-line flag) *)
| Literal (l : bytes)                (* abc *)
| StarClass (p : ascii → bool)       (* x*, greedy *)
| PlusClass (p : ascii → bool)       (* x+, greedy *)
| Capture (r : regex)                (* (r), the one numbered group *)
| Concat (r1 r2 : regex).

(** Greedy repetition: take one more byte first, fall back to the
    continuation when the longer attempt fails. *)
Fixpoint matchStar {R} (p : ascii → bool) (pos : nat) (s : bytes)
    (k : nat → bytes → option R) : option R :=
  match s with
  | c :: s' =>
      if p c then
        match matchStar p (S pos) s' k with
        | Some r => Some r
        | None => k pos s
        end
      else k pos s
  | [] => k pos s
  end.

Fixpoint matchLit {R} (l : bytes) (pos : nat) (s : bytes)
    (k : nat → bytes → option R) : option R :=
  match l with
  | [] => k pos s
  | a :: l' =>
      match s with
      | c :: s' => if decide (a = c) then matchLit l' (S pos) s' k else None
      | [] => None
      end
  end.

(** [rmatch r pos s g k]: match [r] at offset [pos], where [s] is the
    text from [pos] on and [g] the text of the group so far; [k] is the
    rest of the expression. The first success in priority order wins. *)
Fixpoint rmatch {R} (r : regex) (pos : nat) (s : bytes) (g : option bytes)
    (k : nat → bytes → option bytes → option R) : option R :=
  match r with
  | BeginText => if decide (pos = 0) then k pos s g else None
  | Literal l => matchLit l pos s (λ pos' s', k pos' s' g)
  | StarClass p => matchStar p pos s (λ pos' s', k pos' s' g)
  | PlusClass p =>
      match s with
      | c :: s' =>
          if p c then matchStar p (S pos) s' (λ pos' s', k pos' s' g)
          else None
      | [] => None
      end
  | Capture r' =>
      rmatch r' pos s g (λ pos' s' _, k pos' s' (Some (take (pos' - pos) s)))
  | Concat r1 r2 =>
      rmatch r1 pos s g (λ pos' s' g', rmatch r2 pos' s' g' k)
  end.

(** A match starting at [pos]: the matched text and the group's text
    (empty when the group took no part). *)
Definition matchAt (r : regex) (pos : nat) (s : bytes) : option (list bytes) :=
  rmatch r pos s None
    (λ pos' _ g, Some [take (pos' - pos) s; default [] g]).

(** Leftmost match: try every start offset in turn. *)
Fixpoint search (r : regex) (pos : nat) (s : bytes) : list bytes :=
  match matchAt r pos s with
  | Some m => m
  | None =>
      match s with
      | [] => []
      | _ :: s' => search r (S pos) s'
      end
  end.

(** [FindStringSubmatch], a method of [Regexp]: the leftmost match and its group, or
    [nil] (the empty slice) when there is none. *)
Definition FindStringSubmatch (r : regex) (s : string) : list string :=
  str <$> search r 0 (unstr s).

(** [.] : any byte but newline. *)
Definition dot (c : ascii) : bool := negb (bool_decide (c = "010"%char)).

(** [\s] : the Perl class, [[\t\n\f\r ]]. *)
Definition perl_space (c : ascii) : bool :=
  bool_decide (c = "009"%char) || bool_decide (c = "010"%char) ||
  bool_decide (c = "012"%char) || bool_decide (c = "013"%char) ||
  bool_decide (c = " "%char).

End Regexp.

Module Cronjobs.
Import GoStrings Regexp.

(** A Go [error] value is kept as the text its [Error()] method gives;
    [None] is the [nil] error. *)
Definition error : Type := string.

Inductive result (A : Type) : Type :=
| Ok (a : A)
| Err (err : error).
Arguments Ok {A} a.
Arguments Err {A} err.

(** [type Run struct { Name string; Error error; Duration time.Duration }] *)
Record Run : Type := mkRun {
  Name : string;
  Error : option error;
  Duration : Z
}.

(** [var cronRE = regexp.MustCompile(...)], on the pattern
    [^ .* cron: \s+ ( .* ) \n] (written here with spaces between its
    parts). *)
Definition cronRE : regex :=
  Concat BeginText
    (Concat (StarClass dot)
       (Concat (Literal (unstr "cron:"))
          (Concat (PlusClass perl_space)
             (Concat (Capture (StarClass dot))
                (Literal ["010"%char]))))).

Definition dquote : string := String "034"%char "".
Definition newline : string := String "010"%char "".

(** [fmt.Errorf(`File %s: Cron spec ("[...]cron: [spec]") was not found`, fPath)] *)
Definition notFound (fPath : string) : error :=
  "File " +:+ fPath +:+ ": Cron spec (" +:+ dquote +:+ "[...]cron: [spec]"
    +:+ dquote +:+ ") was not found".

(** [fmt.Errorf(`File %s: %s`, fPath, err)] *)
Definition fileError (fPath : string) (err : error) : error :=
  "File " +:+ fPath +:+ ": " +:+ err.

(** [strings.TrimSuffix(f.Name(), filepath.Ext(f.Name()))] *)
Definition trimExt (name : string) : string :=
  str (TrimSuffix (unstr name) (Ext (unstr name))).

(** The closure [runFunc] of [ReadFiles] with the variables it captures
    (besides the scheduler itself). Its body is [runFunc_execute] and
    [runFunc_send] below. *)
Record runFunc : Type := mkRunFunc {
  jobName : string;
  content : string
}.

(** The result channel [runs chan *Run]: the queued values, oldest first,
    the capacity given to [make], and whether [close] was called. *)
Record chan : Type := mkChan {
  buf : list Run;
  cap : nat;
  closed : bool
}.

Definition make_chan (n : nat) : chan :=
  {| buf := []; cap := n; closed := false |}.

(** The first line of [text] holds the marker [cron:] and ends in a
    newline. *)
Definition first_line_marked (text : bytes) : Prop :=
  ∃ before after rest,
    text = before ++ unstr "cron:" ++ after ++ "010"%char :: rest ∧
    "010"%char ∉ before ++ unstr "cron:" ++ after.

(** *** Stand-ins for the collaborators, to run the package on examples *)

(** A parser that knows three descriptors. *)
Definition demoParse (spec : string) : result string :=
  if bool_decide (spec ∈ ["@daily"; "@hourly"; "@every 1s"]) then Ok spec
  else Err ("unrecognized descriptor: " +:+ spec).

(** A driver that logs the statements it is given and rejects the one of
    [bad/x.sql]. *)
Definition demoExecute (d : list string) (stmt : string)
    : list string * option error :=
  (d ++ [stmt],
   if bool_decide (stmt = "-- cron: @hourly" +:+ newline +:+ "BOGUS;" +:+ newline)
   then Some "syntax error" else None).

Definition demoJoin (dirname f : string) : string := dirname +:+ "/" +:+ f.

Definition demoFiles : list (string * string) :=
  [("jobs/a.sql", "SELECT 0;" +:+ newline);
   ("jobs/b.sql", "-- cron: @daily" +:+ newline +:+ "SELECT 1;" +:+ newline);
   ("dup/job.sql", "-- cron: @daily" +:+ newline +:+ "SELECT 1;" +:+ newline);
   ("dup/job.txt", "# cron: @hourly" +:+ newline +:+ "SELECT 2;" +:+ newline);
   ("bad/x.sql", "-- cron: @hourly" +:+ newline +:+ "BOGUS;" +:+ newline);
   ("bad/y.sql", "-- cron: never" +:+ newline +:+ "SELECT 3;" +:+ newline);
   ("bad/z.sql", "-- cron: @daily" +:+ newline +:+ "SELECT 4;" +:+ newline);
   ("raw/late.sql", "SELECT 5;" +:+ newline +:+ "-- cron: @daily" +:+ newline);
   ("cut/nonl.sql", "-- cron: @daily")].

Definition demoReadFile (fPath : string) : result string :=
  match list_find (λ kv, kv.1 = fPath) demoFiles with
  | Some (_, kv) => Ok kv.2
  | None => Err ("open " +:+ fPath +:+ ": no such file or directory")
  end.

Definition demoReadDir (dirname : string) : result (list string) :=
  if bool_decide (dirname = "jobs") then Ok ["a.sql"; "b.sql"]
  else if bool_decide (dirname = "dup") then Ok ["job.sql"; "job.txt"]
  else if bool_decide (dirname = "bad") then Ok ["x.sql"; "y.sql"; "z.sql"]
  else if bool_decide (dirname = "raw") then Ok ["late.sql"]
  else if bool_decide (dirname = "cut") then Ok ["nonl.sql"]
  else Err ("open " +:+ dirname +:+ ": no such file or directory").

(** A second listing for the examples: in [mix], [a.sql] has no marker
    and [y.sql], listed after it, has a spec the parser turns down. *)
Definition mixReadDir (dirname : string) : result (list string) :=
  if bool_decide (dirname = "mix") then Ok ["a.sql"; "y.sql"]
  else Err ("open " +:+ dirname +:+ ": no such file or directory").

Definition mixReadFile (fPath : string) : result string :=
  if bool_decide (fPath = "mix/a.sql") then Ok ("SELECT 0;" +:+ newline)
  else if bool_decide (fPath = "mix/y.sql")
  then Ok ("-- cron: never" +:+ newline +:+ "SELECT 3;" +:+ newline)
  else Err ("open " +:+ fPath +:+ ": no such file or directory").

Section Package.

(** *** Collaborators outside the package *)

(** [cron.Schedule] and the parser [cron.New()] installs. *)
Context {Schedule : Type}.
Variable Parse : string → result Schedule.

(** [driver.Driver]: the state behind the handle, and [Execute]. *)
Context {DB : Type}.
Variable Execute : DB → string → DB * option error.

(** [ioutil.ReadDir] (the entries' names, sorted), [ioutil.ReadFile] and
    [path.Join] of two elements. *)
Variable ReadDir : string → result (list string).
Variable ReadFile : string → result string.
Variable Join : string → string → string.

(** *** [cron.Cron], as far as the package drives it

    [AddFunc] parses the spec and, on success, appends an entry under the
    next id; on a parse error it returns the error and leaves the entries
    alone. [Start] and [Stop] set and clear [running]; the scheduling loop
    fires entries only while [running]. The loop also sorts the entries by
    their next time, which is not followed here: of a started scheduler,
    the theorems of the package use which entries there are, not their
    order. *)
Record Entry : Type := mkEntry {
  ID : nat;
  EntrySchedule : Schedule;
  Job : runFunc
}.

Record Cron : Type := mkCron {
  entries : list Entry;
  nextID : nat;
  running : bool
}.

Definition cron_New : Cron :=
  {| entries := []; nextID := 0; running := false |}.

(** [Schedule], a method of [Cron]: the entry goes in under the next id. *)
Definition cron_Schedule (c : Cron) (schedule : Schedule) (cmd : runFunc)
    : Cron * nat :=
  let id := S (nextID c) in
  ({| entries := entries c ++ [mkEntry id schedule cmd];
      nextID := id;
      running := running c |}, id).

Definition AddFunc (c : Cron) (spec : string) (cmd : runFunc)
    : Cron * result nat :=
  match Parse spec with
  | Err err => (c, Err err)
  | Ok schedule =>
      let '(c', id) := cron_Schedule c schedule cmd in (c', Ok id)
  end.

Definition cron_Start (c : Cron) : Cron :=
  {| entries := entries c; nextID := nextID c; running := true |}.

Definition cron_Stop (c : Cron) : Cron :=
  {| entries := entries c; nextID := nextID c; running := false |}.

(** *** The scheduler *)

(** [type scheduler struct { *cron.Cron; driver; runs; Logger }]. The
    [Logger] field is left at its default, [logger]. *)
Record scheduler : Type := mkScheduler {
  cron : Cron;
  driver : DB;
  runs : chan
}.

(** [func New(driver driver.Driver) *scheduler] *)
Definition New (d : DB) : scheduler :=
  {| cron := cron_New; driver := d; runs := make_chan 128 |}.

Definition with_cron (s : scheduler) (c : Cron) : scheduler :=
  {| cron := c; driver := driver s; runs := runs s |}.

(** The body of [for _, f := range ioFiles] in [ReadFiles]. The scheduler
    is updated in place, so what was added before an early [return]
    stays. The second component is the returned error. *)
Fixpoint readLoop (dirname : string) (ioFiles : list string) (s : scheduler)
    : scheduler * option error :=
  match ioFiles with
  | [] => (s, None)
  | f :: rest =>
      let fPath := Join dirname f in
      match ReadFile fPath with
      | Err err => (s, Some err)
      | Ok content =>
          let match_ := FindStringSubmatch cronRE content in
          if bool_decide (length match_ < 2) then (s, Some (notFound fPath))
          else
            let spec := default "" (match_ !! 1) in
            let jobName := trimExt f in
            match AddFunc (cron s) spec (mkRunFunc jobName content) with
            | (_, Err err) => (s, Some (fileError fPath err))
            | (c, Ok _) => readLoop dirname rest (with_cron s c)
            end
      end
  end.

(** [func (s *scheduler) ReadFiles(dirname string) error] *)
Definition ReadFiles (s : scheduler) (dirname : string)
    : scheduler * option error :=
  match ReadDir dirname with
  | Err err => (s, Some err)
  | Ok ioFiles => readLoop dirname ioFiles s
  end.

(** *** Goroutines

    A firing runs [runFunc] in a goroutine of its own: it notes the start
    time, waits in [Execute], builds the [Run] and sends it. *)
Inductive goroutine : Type :=
| Running (f : runFunc) (start : Z)   (* start taken, inside Execute *)
| Sending (r : Run)                   (* Run built, at the send *)
| Sent (r : Run).                     (* returned, after queueing r *)

(** The goroutine of [logger]: waiting at the receive, between the
    receive and the first [Printf], between the two [Printf], or
    returned. *)
Inductive consumer : Type :=
| Idle
| Got (r : Run)
| Named (r : Run)
| Exited.

(** The process: the scheduler value, the goroutines started so far (a
    goroutine keeps its index), standard output, and two observations:
    the values the consumers took from the channel, in order, and
    whether a goroutine panicked, which ends the process. *)
Record World : Type := mkWorld {
  sched : scheduler;
  goroutines : list goroutine;
  loggers : list consumer;
  stdout : string;
  received : list Run;
  panicked : bool
}.

Definition boot (s : scheduler) : World :=
  {| sched := s; goroutines := []; loggers := []; stdout := "";
     received := []; panicked := false |}.

Definition set_sched (w : World) (s : scheduler) : World :=
  {| sched := s; goroutines := goroutines w; loggers := loggers w;
     stdout := stdout w; received := received w; panicked := panicked w |}.

Definition set_goroutines (w : World) (gs : list goroutine) : World :=
  {| sched := sched w; goroutines := gs; loggers := loggers w;
     stdout := stdout w; received := received w; panicked := panicked w |}.

Definition set_loggers (w : World) (ls : list consumer) : World :=
  {| sched := sched w; goroutines := goroutines w; loggers := ls;
     stdout := stdout w; received := received w; panicked := panicked w |}.

Definition print (w : World) (text : string) : World :=
  {| sched := sched w; goroutines := goroutines w; loggers := loggers w;
     stdout := stdout w +:+ text; received := received w;
     panicked := panicked w |}.

Definition note_received (w : World) (r : Run) : World :=
  {| sched := sched w; goroutines := goroutines w; loggers := loggers w;
     stdout := stdout w; received := received w ++ [r];
     panicked := panicked w |}.

Definition panic (w : World) : World :=
  {| sched := sched w; goroutines := goroutines w; loggers := loggers w;
     stdout := stdout w; received := received w; panicked := true |}.

Definition set_runs (w : World) (c : chan) : World :=
  set_sched w {| cron := cron (sched w); driver := driver (sched w);
                 runs := c |}.

Definition set_driver (w : World) (d : DB) : World :=
  set_sched w {| cron := cron (sched w); driver := d;
                 runs := runs (sched w) |}.

Definition set_buf (c : chan) (q : list Run) : chan :=
  {| buf := q; cap := cap c; closed := closed c |}.

Definition close (c : chan) : chan :=
  {| buf := buf c; cap := cap c; closed := true |}.

(** [func (s *scheduler) Start()]: [go s.Logger(s.runs)], then
    [s.Cron.Start()]. *)
Definition Start (w : World) : option World :=
  let w := set_loggers w (loggers w ++ [Idle]) in
  Some (set_sched w (with_cron (sched w) (cron_Start (cron (sched w))))).

(** [func (s *scheduler) Stop()]: [s.Cron.Stop()], then [close(s.runs)].
    Closing a closed channel panics. *)
Definition Stop (w : World) : option World :=
  let w := set_sched w (with_cron (sched w) (cron_Stop (cron (sched w)))) in
  if closed (runs (sched w)) then Some (panic w)
  else Some (set_runs w (close (runs (sched w)))).

(** The scheduling loop of [cron.Cron] starts entry [i] in a new
    goroutine; [now] is what [time.Now()] gives it. Which entry is due
    when is left open: any entry may fire at any time while the
    scheduler runs. *)
Definition fire (w : World) (i : nat) (now : Z) : option World :=
  if running (cron (sched w)) then
    e ← entries (cron (sched w)) !! i;
    Some (set_goroutines w (goroutines w ++ [Running (Job e) now]))
  else None.

(** [err := s.driver.Execute(content)] returns in goroutine [g], and
    the [Run] literal is built; [now] is the clock [time.Since] reads. *)
Definition runFunc_execute (w : World) (g : nat) (now : Z) : option World :=
  match goroutines w !! g with
  | Some (Running f start) =>
      let '(d, err) := Execute (driver (sched w)) (content f) in
      let run := {| Name := jobName f; Error := err;
                    Duration := (now - start)%Z |} in
      Some (set_goroutines (set_driver w d)
              (<[g := Sending run]> (goroutines w)))
  | _ => None
  end.

(** [s.runs <- &Run{...}] in goroutine [g]: panics on a closed channel,
    queues the value when there is room, and otherwise cannot proceed
    (no step: the goroutine stays at the send). *)
Definition runFunc_send (w : World) (g : nat) : option World :=
  match goroutines w !! g with
  | Some (Sending r) =>
      let c := runs (sched w) in
      if closed c then Some (panic w)
      else if bool_decide (length (buf c) < cap c) then
        Some (set_goroutines (set_runs w (set_buf c (buf c ++ [r])))
                (<[g := Sent r]> (goroutines w)))
      else None
  | _ => None
  end.

(** [for run := range runs] in consumer [l]: takes the oldest value; on
    an empty channel it returns when the channel is closed and cannot
    proceed while it is open. *)
Definition logger_receive (w : World) (l : nat) : option World :=
  match loggers w !! l with
  | Some Idle =>
      let c := runs (sched w) in
      match buf c with
      | r :: q =>
          Some (note_received
                  (set_loggers (set_runs w (set_buf c q))
                     (<[l := Got r]> (loggers w))) r)
      | [] =>
          if closed c then Some (set_loggers w (<[l := Exited]> (loggers w)))
          else None
      end
  | _ => None
  end.

(** [fmt.Printf("Running %s: ", run.Name)] *)
Definition logger_print_name (w : World) (l : nat) : option World :=
  match loggers w !! l with
  | Some (Got r) =>
      Some (print (set_loggers w (<[l := Named r]> (loggers w)))
              ("Running " +:+ Name r +:+ ": "))
  | _ => None
  end.

(** [if run.Error != nil { fmt.Printf("error=%s\n", run.Error) }
    else { fmt.Printf("OK\n") }] *)
Definition status (r : Run) : string :=
  match Error r with
  | Some err => "error=" +:+ err +:+ newline
  | None => "OK" +:+ newline
  end.

Definition logger_print_status (w : World) (l : nat) : option World :=
  match loggers w !! l with
  | Some (Named r) =>
      Some (print (set_loggers w (<[l := Idle]> (loggers w))) (status r))
  | _ => None
  end.

(** *** Interleavings *)

Inductive label : Type :=
| CallStart
| CallStop
| Fire (i : nat) (now : Z)
| Executed (g : nat) (now : Z)
| Send (g : nat)
| Receive (l : nat)
| PrintName (l : nat)
| PrintStatus (l : nat).

(** One atomic action; [None] when the action cannot happen in [w]
    (its goroutine is elsewhere or blocked, or the process is gone). *)
Definition step (w : World) (a : label) : option World :=
  if panicked w then None
  else
    match a with
    | CallStart => Start w
    | CallStop => Stop w
    | Fire i now => fire w i now
    | Executed g now => runFunc_execute w g now
    | Send g => runFunc_send w g
    | Receive l => logger_receive w l
    | PrintName l => logger_print_name w l
    | PrintStatus l => logger_print_status w l
    end.

Fixpoint exec (w : World) (tr : list label) : option World :=
  match tr with
  | [] => Some w
  | a :: tr' => w' ← step w a; exec w' tr'
  end.

(** The line [logger] writes for one [Run]. *)
Definition line (r : Run) : string :=
  "Running " +:+ Name r +:+ ": " +:+ status r.

(** Goroutines of [runFunc] that still owe their send. *)
Definition owes (g : goroutine) : nat :=
  match g with
  | Sent _ => 0
  | _ => 1
  end.

Definition in_flight (w : World) : nat := sum_list (owes <$> goroutines w).

Definition is_fire (a : label) : bool :=
  match a with
  | Fire _ _ => true
  | _ => false
  end.

Definition firings (tr : list label) : nat := length (filter is_fire tr).

Definition is_api (a : label) : bool :=
  match a with
  | CallStart | CallStop => true
  | _ => false
  end.

(** The [Run] a goroutine has built, and the one it has queued. *)
Definition run_of (g : goroutine) : option Run :=
  match g with
  | Running _ _ => None
  | Sending r | Sent r => Some r
  end.

Definition sent_run (g : goroutine) : option Run :=
  match g with
  | Sent r => Some r
  | _ => None
  end.

Definition sent_runs (w : World) : list Run := omap sent_run (goroutines w).

(** What one pass of the loop of [ReadFiles] makes of file [f]: the
    schedule and closure it hands to the registry, or the error it
    returns. [readLoop_cons] below relates it to [readLoop]. *)
Definition readJob (dirname f : string) : result (Schedule * runFunc) :=
  let fPath := Join dirname f in
  match ReadFile fPath with
  | Err err => Err err
  | Ok content =>
      let match_ := FindStringSubmatch cronRE content in
      if bool_decide (length match_ < 2) then Err (notFound fPath)
      else
        match Parse (default "" (match_ !! 1)) with
        | Err err => Err (fileError fPath err)
        | Ok schedule => Ok (schedule, mkRunFunc (trimExt f) content)
        end
  end.

Definition valid (dirname f : string) : Prop :=
  ∃ j, readJob dirname f = Ok j.

Definition jobOf (dirname f : string) : option runFunc :=
  match readJob dirname f with
  | Ok (_, j) => Some j
  | Err _ => None
  end.

(** Where a goroutine's job, or the name on its [Run], comes from. *)
Definition from_jobs (jobs : list runFunc) (g : goroutine) : Prop :=
  match g with
  | Running f _ => f ∈ jobs
  | Sending r | Sent r => ∃ f, f ∈ jobs ∧ Name r = jobName f
  end.

(** The text [logger] writes for the values [rs], one line each. *)
Definition lines (rs : list Run) : string :=
  foldr (λ r out, line r +:+ out) "" rs.

(** Nothing in flight, nothing running: the state [Stop] should find. *)
Definition quiet (w : World) : Prop :=
  panicked w = false ∧ in_flight w = 0 ∧ running (cron (sched w)) = false.

(** No job has fired and nothing was reported yet. *)
Definition untouched (w : World) : Prop :=
  goroutines w = [] ∧ buf (runs (sched w)) = [] ∧ received w = [] ∧
  stdout w = "" ∧ panicked w = false ∧
  Forall (λ c, c = Idle ∨ c = Exited) (loggers w).

Definition is_start (a : label) : bool :=
  match a with
  | CallStart => true
  | _ => false
  end.

(** Calls of [Start] in an interleaving. *)
Definition starts (tr : list label) : nat := length (filter is_start tr).

(** What a consumer still has to write for the value it holds. *)
Definition pending (c : consumer) : string :=
  match c with
  | Got r => line r
  | Named r => status r
  | Idle | Exited => ""
  end.

Definition pending_all (cs : list consumer) : string :=
  foldr (λ c out, pending c +:+ out) "" cs.

(** The schedule [consumer l] follows to take [n] values off the channel
    and print them. *)
Fixpoint consume (l n : nat) : list label :=
  match n with
  | 0 => []
  | S n' => Receive l :: PrintName l :: PrintStatus l :: consume l n'
  end.

(* ===================================================================== *)
(** ** Facts *)
(* ===================================================================== *)

(** *** The marker expression *)

Lemma matchStar_inv {R} p pos s (k : nat → bytes → option R) r :
  matchStar p pos s k = Some r →
  ∃ n, Forall (λ c, p c = true) (take n s) ∧ k (pos + n) (drop n s) = Some r.
Proof.
  revert pos. induction s as [|c s IH]; intros pos; simpl.
  - intros H. exists 0. rewrite Nat.add_0_r. split; [constructor | done].
  - destruct (p c) eqn:Hp.
    + destruct (matchStar p (S pos) s k) eqn:Hm.
      * intros [= <-]. destruct (IH _ Hm) as (n & Hall & Hk).
        exists (S n). simpl. split; [by constructor |].
        by rewrite Nat.add_succ_r.
      * intros H. exists 0. rewrite Nat.add_0_r. split; [constructor | done].
    + intros H. exists 0. rewrite Nat.add_0_r. split; [constructor | done].
Qed.

Lemma matchLit_inv {R} l pos s (k : nat → bytes → option R) r :
  matchLit l pos s k = Some r →
  ∃ s', s = l ++ s' ∧ k (pos + length l) s' = Some r.
Proof.
  revert pos s. induction l as [|a l IH]; intros pos s; simpl.
  - intros H. exists s. by rewrite Nat.add_0_r.
  - destruct s as [|c s]; [done |]. case_decide as Hac; [| done].
    intros Hm. destruct (IH _ _ Hm) as (s' & -> & Hk). subst c.
    exists s'. split; [done |]. by rewrite Nat.add_succ_r.
Qed.

Lemma dot_no_newline l :
  Forall (λ c, dot c = true) l → "010"%char ∉ l.
Proof.
  intros Hall Hin. rewrite Forall_forall in Hall.
  specialize (Hall _ Hin). unfold dot in Hall.
  by rewrite bool_decide_eq_true_2 in Hall.
Qed.

(** A match of [cronRE] starts at offset 0, has two parts, and shows the
    marker inside a newline-terminated first line. *)
Lemma cronRE_matchAt pos s m :
  matchAt cronRE pos s = Some m →
  pos = 0 ∧ length m = 2 ∧ first_line_marked s.
Proof.
  unfold matchAt, cronRE. cbn [rmatch].
  case_decide as Hpos; [| done]. intros H0.
  apply matchStar_inv in H0 as (n1 & Hdots & H1).
  apply matchLit_inv in H1 as (s1 & Hs1 & H2).
  destruct s1 as [|c s1]; [done |].
  destruct (perl_space c); [| done].
  apply matchStar_inv in H2 as (n2 & _ & H3).
  apply matchStar_inv in H3 as (n3 & _ & H4).
  apply matchLit_inv in H4 as (s4 & Hs4 & H).
  injection H as <-. split; [done |]. split; [done |].
  assert (Hnl : "010"%char ∈ c :: s1).
  { rewrite <- (take_drop n2 s1), <- (take_drop n3 (drop n2 s1)), Hs4.
    rewrite elem_of_cons, !elem_of_app, elem_of_cons. auto 10. }
  apply list_elem_of_split_l in Hnl as (after & rest & Hsplit & Hafter).
  exists (take n1 s), after, rest. split.
  - rewrite <- Hsplit. rewrite <- (take_drop n1 s) at 1. by rewrite Hs1.
  - apply dot_no_newline in Hdots. intros Hin.
    apply elem_of_app in Hin as [Hin | Hin]; [done |].
    apply elem_of_app in Hin as [Hin | Hin]; [| done].
    cbn in Hin.
    repeat (apply elem_of_cons in Hin as [Hin | Hin]; [discriminate |]).
    by apply elem_of_nil in Hin.
Qed.

Lemma search_unfold r pos s :
  search r pos s =
  match matchAt r pos s with
  | Some m => m
  | None => match s with [] => [] | _ :: s' => search r (S pos) s' end
  end.
Proof. by destruct s. Qed.

Lemma cronRE_search_later pos s : search cronRE (S pos) s = [].
Proof.
  revert pos. induction s as [|c s IH]; intros pos; rewrite search_unfold.
  - destruct (matchAt cronRE (S pos) []) eqn:Hm; [| done].
    by apply cronRE_matchAt in Hm as [? _].
  - destruct (matchAt cronRE (S pos) (c :: s)) eqn:Hm; [| apply IH].
    by apply cronRE_matchAt in Hm as [? _].
Qed.

Lemma cronRE_found content :
  ¬ length (FindStringSubmatch cronRE content) < 2 →
  length (FindStringSubmatch cronRE content) = 2 ∧
  first_line_marked (unstr content).
Proof.
  unfold FindStringSubmatch. rewrite length_fmap, search_unfold.
  destruct (matchAt cronRE 0 (unstr content)) as [m|] eqn:Hm.
  - intros _. apply cronRE_matchAt in Hm as (_ & ? & ?). by split.
  - destruct (unstr content); [simpl; lia |].
    rewrite cronRE_search_later. simpl. lia.
Qed.

(** *** Registration *)

Lemma readLoop_cons dirname f rest s :
  readLoop dirname (f :: rest) s =
  match readJob dirname f with
  | Err err => (s, Some err)
  | Ok (schedule, j) =>
      readLoop dirname rest (with_cron s (cron_Schedule (cron s) schedule j).1)
  end.
Proof.
  unfold readJob. simpl. destruct (ReadFile (Join dirname f)); [| done].
  case_bool_decide; [done |]. unfold AddFunc.
  by destruct (Parse _).
Qed.

Lemma readLoop_app dirname pre post s :
  readLoop dirname (pre ++ post) s =
  match readLoop dirname pre s with
  | (s', None) => readLoop dirname post s'
  | failed => failed
  end.
Proof.
  revert s. induction pre as [|f pre IH]; intros s; [done |].
  rewrite <- app_comm_cons, !readLoop_cons.
  destruct (readJob dirname f) as [[schedule j]|err]; [apply IH | done].
Qed.

(** The scheduler after the loop: the jobs of a prefix of the listing
    were appended, in order, and nothing else changed; the loop stopped
    early exactly at the first file that fails, with that file's error. *)
Lemma readLoop_outcome dirname names s s' err :
  readLoop dirname names s = (s', err) →
  ∃ k,
    Job <$> entries (cron s') =
      (Job <$> entries (cron s)) ++ omap (jobOf dirname) (take k names) ∧
    length (entries (cron s')) = length (entries (cron s)) + k ∧
    Forall (valid dirname) (take k names) ∧
    match err with
    | None => k = length names
    | Some e => ∃ f, names !! k = Some f ∧ readJob dirname f = Err e
    end ∧
    driver s' = driver s ∧ runs s' = runs s ∧
    running (cron s') = running (cron s).
Proof.
  revert s. induction names as [|f names IH]; intros s.
  - intros [= <- <-]. exists 0. simpl. rewrite app_nil_r, Nat.add_0_r.
    by repeat split.
  - rewrite readLoop_cons.
    destruct (readJob dirname f) as [[schedule j]|e] eqn:Hjob.
    + intros Hloop. destruct (IH _ Hloop) as (k & Hjobs & Hlen & Hall & Herr & Hd & Hr & Hrun).
      exists (S k). simpl in *. unfold jobOf at 1. rewrite Hjob.
      rewrite Hjobs, Hlen, fmap_app, length_app. simpl.
      rewrite <- app_assoc. simpl.
      repeat split; try done; try lia.
      * constructor; [by eexists | done].
      * destruct err; [done | by f_equal].
    + intros [= <- <-]. exists 0. simpl. rewrite app_nil_r, Nat.add_0_r.
      repeat split; try done. by exists f.
Qed.

Lemma readLoop_valid dirname names s :
  Forall (valid dirname) names →
  ∃ s', readLoop dirname names s = (s', None) ∧
    Job <$> entries (cron s') =
      (Job <$> entries (cron s)) ++ omap (jobOf dirname) names ∧
    length (entries (cron s')) = length (entries (cron s)) + length names.
Proof.
  intros Hall. destruct (readLoop dirname names s) as [s' err] eqn:Hloop.
  destruct (readLoop_outcome _ _ _ _ _ Hloop)
    as (k & Hjobs & Hlen & _ & Herr & _).
  destruct err as [e|].
  - destruct Herr as (f & Hf & Hbad).
    rewrite Forall_forall in Hall.
    destruct (Hall f) as [j Hj]; [by eapply list_elem_of_lookup_2 |].
    congruence.
  - subst k. rewrite firstn_all in Hjobs. by exists s'.
Qed.

(** *** Steps *)

Ltac step_inv H :=
  unfold step in H;
  destruct (panicked _) eqn:?; [discriminate H |];
  try match type of H with
      | match ?a with _ => _ end = _ => is_var a; destruct a
      end;
  unfold Start, Stop, fire, runFunc_execute, runFunc_send, logger_receive,
    logger_print_name, logger_print_status in H;
  simpl in H; repeat case_match;
  try (apply bind_Some in H as (? & ? & H)); simplify_eq/=;
  repeat match goal with
         | Hd : bool_decide _ = true |- _ => apply bool_decide_eq_true in Hd
         | Hd : bool_decide _ = false |- _ => apply bool_decide_eq_false in Hd
         end.

Lemma step_entries w a w' :
  step w a = Some w' →
  entries (cron (sched w')) = entries (cron (sched w)).
Proof. intros H. by step_inv H. Qed.

Lemma step_cap w a w' :
  step w a = Some w' → cap (runs (sched w')) = cap (runs (sched w)).
Proof. intros H. by step_inv H. Qed.

Lemma step_goroutines_length w a w' :
  step w a = Some w' →
  length (goroutines w') =
  length (goroutines w) + (if is_fire a then 1 else 0).
Proof.
  intros H. step_inv H; rewrite ?length_insert, ?length_app; simpl; lia.
Qed.

Lemma exec_cons w a tr w' :
  exec w (a :: tr) = Some w' ↔ ∃ w1, step w a = Some w1 ∧ exec w1 tr = Some w'.
Proof. simpl. by rewrite bind_Some. Qed.

Lemma exec_app w tr1 tr2 w' :
  exec w (tr1 ++ tr2) = Some w' ↔
  ∃ w1, exec w tr1 = Some w1 ∧ exec w1 tr2 = Some w'.
Proof.
  revert w. induction tr1 as [|a tr1 IH]; intros w.
  - simpl. split; [by exists w | by intros (? & [= ->] & ?)].
  - rewrite <- app_comm_cons, !exec_cons. setoid_rewrite IH.
    split.
    + intros (w1 & ? & w2 & ? & ?). exists w2. split; [| done].
      apply exec_cons. by exists w1.
    + intros (w2 & (w1 & ? & ?)%exec_cons & ?). exists w1. split; [done |].
      by exists w2.
Qed.

(** A property kept by every step is kept along every interleaving. *)
Lemma exec_invariant (P : World → Prop) w tr w' :
  (∀ w a w', P w → step w a = Some w' → P w') →
  P w → exec w tr = Some w' → P w'.
Proof.
  intros Hstep. revert w. induction tr as [|a tr IH]; intros w HP.
  - by intros [= <-].
  - intros (w1 & H1 & Htr)%exec_cons. eauto.
Qed.

Lemma exec_entries w tr w' :
  exec w tr = Some w' →
  entries (cron (sched w')) = entries (cron (sched w)).
Proof.
  intros H.
  apply (exec_invariant
           (λ v, entries (cron (sched v)) = entries (cron (sched w))) w tr);
    [| done | done].
  intros v a v' Hv Hs. by rewrite (step_entries _ _ _ Hs).
Qed.

Lemma exec_cap w tr w' :
  exec w tr = Some w' → cap (runs (sched w')) = cap (runs (sched w)).
Proof.
  intros H.
  apply (exec_invariant
           (λ v, cap (runs (sched v)) = cap (runs (sched w))) w tr);
    [| done | done].
  intros v a v' Hv Hs. by rewrite (step_cap _ _ _ Hs).
Qed.

Lemma firings_cons a tr :
  firings (a :: tr) = (if is_fire a then 1 else 0) + firings tr.
Proof.
  unfold firings. rewrite filter_cons. by destruct a.
Qed.

Lemma exec_goroutines_length w tr w' :
  exec w tr = Some w' →
  length (goroutines w') = length (goroutines w) + firings tr.
Proof.
  revert w. induction tr as [|a tr IH]; intros w.
  - intros [= <-]. unfold firings. simpl. lia.
  - intros (w1 & H1 & Htr)%exec_cons.
    rewrite (IH _ Htr), (step_goroutines_length _ _ _ H1), firings_cons. lia.
Qed.

(** Replacing a goroutine that has not sent by one that has: its [Run]
    joins the sent ones. *)
Lemma sent_insert_sent (gs : list goroutine) g x r :
  gs !! g = Some x → sent_run x = None →
  omap sent_run (<[g := Sent r]> gs) ≡ₚ r :: omap sent_run gs.
Proof.
  revert g. induction gs as [|y gs IH]; intros [|g]; csimpl; try done.
  - intros [= ->] ->. done.
  - intros Hg Hx. destruct (sent_run y).
    + rewrite (IH _ Hg Hx). apply Permutation_swap.
    + by apply IH.
Qed.

Lemma sent_insert_other (gs : list goroutine) g x y :
  gs !! g = Some x → sent_run x = None → sent_run y = None →
  omap sent_run (<[g := y]> gs) = omap sent_run gs.
Proof.
  revert g. induction gs as [|z gs IH]; intros [|g]; csimpl; try done.
  - by intros [= ->] -> ->.
  - intros Hg Hx Hy. by rewrite (IH _ Hg Hx Hy).
Qed.

(** What the consumers took plus what is queued is what was sent. *)
Lemma step_conserves w a w' :
  step w a = Some w' →
  received w ++ buf (runs (sched w)) ≡ₚ sent_runs w →
  received w' ++ buf (runs (sched w')) ≡ₚ sent_runs w'.
Proof.
  unfold sent_runs. intros H Hinv. step_inv H;
    try match goal with
        | Hb : buf _ = _ |- _ => try rewrite Hb in Hinv; try rewrite Hb
        end; try done.
  - by rewrite omap_app, app_nil_r.
  - by erewrite sent_insert_other.
  - erewrite sent_insert_sent by done.
    rewrite app_assoc, <- Permutation_cons_append. by f_equiv.
  - by rewrite <- app_assoc.
Qed.

Lemma exec_conserves w tr w' :
  exec w tr = Some w' →
  received w ++ buf (runs (sched w)) ≡ₚ sent_runs w →
  received w' ++ buf (runs (sched w')) ≡ₚ sent_runs w'.
Proof.
  intros H Hinv.
  apply (exec_invariant
    (λ v, received v ++ buf (runs (sched v)) ≡ₚ sent_runs v) w tr);
    [| done | done].
  intros v a v' Hv Hs. by eapply step_conserves.
Qed.

Lemma sent_or_owing (gs : list goroutine) :
  length (omap sent_run gs) + sum_list (owes <$> gs) = length gs.
Proof.
  induction gs as [|[] gs IH]; csimpl in *; lia.
Qed.

Lemma step_buf_bound w a w' :
  step w a = Some w' →
  length (buf (runs (sched w))) ≤ cap (runs (sched w)) →
  length (buf (runs (sched w'))) ≤ cap (runs (sched w')).
Proof.
  intros H Hle. step_inv H;
    try match goal with
        | Hb : buf _ = _ |- _ => try rewrite Hb in Hle; try rewrite Hb
        end; rewrite ?length_app; simpl in *; try done; lia.
Qed.

(** Once built, the [Run] of a goroutine stays with it. *)
Lemma step_run_stable w a w' g x r :
  step w a = Some w' →
  goroutines w !! g = Some x → run_of x = Some r →
  ∃ x', goroutines w' !! g = Some x' ∧ run_of x' = Some r.
Proof.
  intros H Hg Hr. step_inv H; eauto.
  - exists x. split; [| done]. by apply lookup_app_l_Some.
  - match goal with
    | Hg0 : goroutines w !! ?g0 = Some (Running _ _) |- _ =>
        destruct (decide (g = g0)) as [-> | Hne]; [by simplify_eq/= |];
        exists x; by rewrite list_lookup_insert_ne
    end.
  - match goal with
    | Hg0 : goroutines w !! ?g0 = Some (Sending ?r0) |- _ =>
        destruct (decide (g = g0)) as [-> | Hne]
    end.
    + simplify_eq/=. exists (Sent r). split; [| done].
      apply list_lookup_insert_eq. by eapply lookup_lt_Some.
    + exists x. by rewrite list_lookup_insert_ne.
Qed.

Lemma exec_run_stable w tr w' g x r :
  exec w tr = Some w' →
  goroutines w !! g = Some x → run_of x = Some r →
  ∃ x', goroutines w' !! g = Some x' ∧ run_of x' = Some r.
Proof.
  intros H Hg Hr.
  apply (exec_invariant
    (λ v, ∃ x', goroutines v !! g = Some x' ∧ run_of x' = Some r) w tr);
    [| by exists x | done].
  intros v a v' (y & Hy & Hry) Hs. by eapply step_run_stable.
Qed.

(** The step [Execute] returns in: the goroutine was inside [Execute], the
    driver moves on, and the [Run] carries the closure's name, the error
    [Execute] gave and the time since the start. *)
Lemma executed_inv w g now w' :
  step w (Executed g now) = Some w' →
  ∃ f start,
    goroutines w !! g = Some (Running f start) ∧
    let res := Execute (driver (sched w)) (content f) in
    driver (sched w') = res.1 ∧
    goroutines w' !! g =
      Some (Sending {| Name := jobName f; Error := res.2;
                       Duration := (now - start)%Z |}).
Proof.
  intros H. step_inv H. eexists _, _. split; [done |].
  match goal with He : Execute _ _ = _ |- _ => rewrite He end. simpl.
  split; [done |]. apply list_lookup_insert_eq. by eapply lookup_lt_Some.
Qed.

Lemma executed_enabled w g f start now :
  panicked w = false →
  goroutines w !! g = Some (Running f start) →
  is_Some (step w (Executed g now)).
Proof.
  intros Hp Hg. unfold step, runFunc_execute. rewrite Hp, Hg.
  by destruct (Execute _ _).
Qed.

Lemma step_from_jobs w a w' :
  step w a = Some w' →
  Forall (from_jobs (Job <$> entries (cron (sched w)))) (goroutines w) →
  Forall (from_jobs (Job <$> entries (cron (sched w')))) (goroutines w').
Proof.
  intros H Hall. step_inv H; try done.
  - apply Forall_app. split; [done |]. constructor; [| done]. simpl.
    apply list_elem_of_fmap. eexists. split; [done |].
    by eapply list_elem_of_lookup_2.
  - apply Forall_insert; [done |]. simpl.
    match goal with
    | Hg : goroutines w !! _ = Some (Running ?f _) |- _ =>
        exists f; split; [| done];
        by apply (Forall_lookup_1 _ _ _ _ Hall Hg)
    end.
  - apply Forall_insert; [done |].
    match goal with
    | Hg : goroutines w !! _ = Some (Sending _) |- _ =>
        apply (Forall_lookup_1 _ _ _ _ Hall Hg)
    end.
Qed.

Lemma exec_from_jobs w tr w' :
  exec w tr = Some w' →
  Forall (from_jobs (Job <$> entries (cron (sched w)))) (goroutines w) →
  Forall (from_jobs (Job <$> entries (cron (sched w')))) (goroutines w').
Proof.
  intros H Hall.
  apply (exec_invariant
    (λ v, Forall (from_jobs (Job <$> entries (cron (sched v))))
            (goroutines v)) w tr); [| done | done].
  intros v a v' Hv Hs. by eapply step_from_jobs.
Qed.

(** *** The consumer *)

Lemma append_assoc (a b c : string) : (a +:+ b) +:+ c = a +:+ b +:+ c.
Proof.
  induction a as [|x a IH]; [done |].
  change (String x ((a +:+ b) +:+ c) = String x (a +:+ b +:+ c)).
  by f_equal.
Qed.

Lemma append_nil_r (a : string) : a +:+ "" = a.
Proof.
  induction a as [|x a IH]; [done |].
  change (String x (a +:+ "") = String x a). by f_equal.
Qed.

Lemma receive_step w l r q :
  panicked w = false →
  loggers w !! l = Some Idle →
  buf (runs (sched w)) = r :: q →
  step w (Receive l) =
  Some (note_received
          (set_loggers (set_runs w (set_buf (runs (sched w)) q))
             (<[l := Got r]> (loggers w))) r).
Proof.
  intros Hp Hl Hb. unfold step, logger_receive. by rewrite Hp, Hl, Hb.
Qed.

Lemma print_name_step w l r :
  panicked w = false →
  loggers w !! l = Some (Got r) →
  step w (PrintName l) =
  Some (print (set_loggers w (<[l := Named r]> (loggers w)))
          ("Running " +:+ Name r +:+ ": ")).
Proof.
  intros Hp Hl. unfold step, logger_print_name. by rewrite Hp, Hl.
Qed.

Lemma print_status_step w l r :
  panicked w = false →
  loggers w !! l = Some (Named r) →
  step w (PrintStatus l) =
  Some (print (set_loggers w (<[l := Idle]> (loggers w))) (status r)).
Proof.
  intros Hp Hl. unfold step, logger_print_status. by rewrite Hp, Hl.
Qed.

(** One pass of the loop of [logger]: receive, print the name, print the
    status. *)
Lemma logger_pass w l r q :
  panicked w = false →
  loggers w !! l = Some Idle →
  buf (runs (sched w)) = r :: q →
  ∃ w',
    exec w [Receive l; PrintName l; PrintStatus l] = Some w' ∧
    stdout w' = stdout w +:+ line r ∧
    received w' = received w ++ [r] ∧
    buf (runs (sched w')) = q ∧
    loggers w' !! l = Some Idle ∧
    panicked w' = false ∧
    goroutines w' = goroutines w ∧
    closed (runs (sched w')) = closed (runs (sched w)).
Proof.
  intros Hp Hl Hb. pose proof (lookup_lt_Some _ _ _ Hl) as Hlt.
  eexists. split.
  - apply exec_cons. eexists. split; [by apply receive_step |].
    apply exec_cons. eexists. split.
    { apply print_name_step; [done |]. by apply list_lookup_insert_eq. }
    apply exec_cons. eexists. split; [| done].
    apply print_status_step; [done |]. simpl.
    apply list_lookup_insert_eq. by rewrite length_insert.
  - simpl. repeat split; try done.
    + unfold line. by rewrite !append_assoc.
    + apply list_lookup_insert_eq. by rewrite !length_insert.
Qed.

Lemma consume_drains rs : ∀ w l q,
  panicked w = false →
  loggers w !! l = Some Idle →
  buf (runs (sched w)) = rs ++ q →
  ∃ w',
    exec w (consume l (length rs)) = Some w' ∧
    stdout w' = stdout w +:+ lines rs ∧
    received w' = received w ++ rs ∧
    buf (runs (sched w')) = q ∧
    loggers w' !! l = Some Idle ∧
    panicked w' = false ∧
    goroutines w' = goroutines w ∧
    closed (runs (sched w')) = closed (runs (sched w)).
Proof.
  induction rs as [|r rs IH]; intros w l q Hp Hl Hb.
  - exists w. simpl. rewrite append_nil_r, app_nil_r. by repeat split.
  - destruct (logger_pass w l r (rs ++ q) Hp Hl Hb)
      as (w1 & Hex & Hout & Hrec & Hbuf & Hl1 & Hp1 & Hg1 & Hc1).
    destruct (IH w1 l q Hp1 Hl1 Hbuf)
      as (w' & Hex' & Hout' & Hrec' & Hbuf' & Hl' & Hp' & Hg' & Hc').
    exists w'. split.
    + change (consume l (length (r :: rs)))
        with ([Receive l; PrintName l; PrintStatus l]
                ++ consume l (length rs)).
      apply exec_app. by exists w1.
    + rewrite Hout', Hout, Hrec', Hrec, Hg', Hg1, Hc', Hc1.
      simpl. rewrite append_assoc, <- app_assoc. by repeat split.
Qed.

(** *** After [Stop] *)

Lemma owes_zero (gs : list goroutine) g x :
  sum_list (owes <$> gs) = 0 → gs !! g = Some x → owes x = 0.
Proof.
  revert g. induction gs as [|y gs IH]; intros [|g]; csimpl; try done.
  - intros Hsum [= ->]. lia.
  - intros Hsum Hg. apply (IH g); [lia | done].
Qed.

(** In a quiet state only the consumers can move, and they keep it
    quiet. *)
Lemma step_quiet w a w' :
  is_api a = false → quiet w → step w a = Some w' →
  quiet w' ∧ goroutines w' = goroutines w ∧
  closed (runs (sched w')) = closed (runs (sched w)).
Proof.
  unfold quiet, in_flight. intros Ha (Hp & Hfl & Hrun) H.
  step_inv H; try done; try congruence;
    match goal with
    | Hg : goroutines w !! _ = Some _ |- _ =>
        by apply (owes_zero _ _ _ Hfl) in Hg
    end.
Qed.

Lemma exec_quiet w tr w' :
  Forall (λ a, is_api a = false) tr → quiet w → exec w tr = Some w' →
  quiet w' ∧ goroutines w' = goroutines w ∧
  closed (runs (sched w')) = closed (runs (sched w)).
Proof.
  revert w. induction tr as [|a tr IH]; intros w Hall Hq.
  - by intros [= <-].
  - intros (w1 & H1 & Htr)%exec_cons.
    apply Forall_cons in Hall as [Ha Hall].
    destruct (step_quiet _ _ _ Ha Hq H1) as (Hq1 & Hg1 & Hc1).
    destruct (IH _ Hall Hq1 Htr) as (Hq' & Hg' & Hc').
    by rewrite Hg', Hg1, Hc', Hc1.
Qed.

(** *** Claims about registration *)

Lemma readJob_Ok dirname f schedule j :
  readJob dirname f = Ok (schedule, j) →
  ReadFile (Join dirname f) = Ok (content j) ∧
  jobName j = trimExt f ∧
  first_line_marked (unstr (content j)).
Proof.
  unfold readJob. destruct (ReadFile (Join dirname f)) as [text|]; [| done].
  case_bool_decide as Hlen; [done |].
  destruct (Parse _); [| done]. intros [= <- <-]. simpl.
  by destruct (cronRE_found _ Hlen).
Qed.

Lemma readJob_unmarked dirname f text :
  ReadFile (Join dirname f) = Ok text →
  ¬ first_line_marked (unstr text) →
  readJob dirname f = Err (notFound (Join dirname f)).
Proof.
  intros Hread Hno. unfold readJob. rewrite Hread.
  case_bool_decide as Hlen; [done |].
  by destruct (cronRE_found _ Hlen).
Qed.

Lemma jobOf_Some dirname f j :
  jobOf dirname f = Some j → ∃ schedule, readJob dirname f = Ok (schedule, j).
Proof.
  unfold jobOf. destruct (readJob dirname f) as [[schedule j']|]; [| done].
  intros [= ->]. by exists schedule.
Qed.

Lemma ReadFiles_at_failure s dirname pre f post err :
  ReadDir dirname = Ok (pre ++ f :: post) →
  Forall (valid dirname) pre →
  readJob dirname f = Err err →
  ∃ s',
    ReadFiles s dirname = (s', Some err) ∧
    Job <$> entries (cron s') =
      (Job <$> entries (cron s)) ++ omap (jobOf dirname) pre ∧
    length (entries (cron s')) = length (entries (cron s)) + length pre.
Proof.
  intros Hdir Hpre Hbad. unfold ReadFiles. rewrite Hdir, readLoop_app.
  destruct (readLoop_valid dirname pre s Hpre) as (s' & -> & Hjobs & Hlen).
  exists s'. by rewrite readLoop_cons, Hbad.
Qed.

Lemma fire_after_Start s i now :
  i < length (entries (cron s)) →
  is_Some (exec (boot s) [CallStart; Fire i now]).
Proof.
  intros Hi. apply lookup_lt_is_Some_2 in Hi as [e He].
  simpl. unfold step, fire. simpl. rewrite He. simpl. by eexists.
Qed.

(** C1, as amended. When one file of the directory fails to register
    (unreadable, no marker, or a spec that does not parse), [ReadFiles]
    returns the error of that file and stops there: the files listed before
    it, all valid, are registered in order and each can be fired once the
    scheduler is started; the registry holds nothing of the later files. *)
Theorem ReadFiles_stops_at_first_failure s dirname pre f post err :
  ReadDir dirname = Ok (pre ++ f :: post) →
  Forall (valid dirname) pre →
  readJob dirname f = Err err →
  ∃ s',
    ReadFiles s dirname = (s', Some err) ∧
    Job <$> entries (cron s') =
      (Job <$> entries (cron s)) ++ omap (jobOf dirname) pre ∧
    length (entries (cron s')) = length (entries (cron s)) + length pre ∧
    ∀ i now, i < length (entries (cron s')) →
      is_Some (exec (boot s') [CallStart; Fire i now]).
Proof.
  intros Hdir Hpre Hbad.
  destruct (ReadFiles_at_failure s _ _ _ _ _ Hdir Hpre Hbad)
    as (s' & Hread & Hjobs & Hlen).
  exists s'. repeat split; try done. intros i now. apply fire_after_Start.
Qed.

(** C2, as amended. A file whose extracted spec text does not parse
    makes [ReadFiles] return a non-nil error, and its job is never added:
    what was added are the jobs of files strictly before it in the
    listing, and every goroutine the running scheduler ever starts runs
    one of the registered jobs. When every file listed before it
    registers, so that the loop reaches it, the error is
    "File <path>: <parse error>" for this very file. *)
Theorem ReadFiles_unparsable_spec s dirname names i f text perr :
  ReadDir dirname = Ok names →
  names !! i = Some f →
  ReadFile (Join dirname f) = Ok text →
  ¬ length (FindStringSubmatch cronRE text) < 2 →
  Parse (default "" (FindStringSubmatch cronRE text !! 1)) = Err perr →
  ∃ s' err k,
    ReadFiles s dirname = (s', Some err) ∧
    k ≤ i ∧
    Job <$> entries (cron s') =
      (Job <$> entries (cron s)) ++ omap (jobOf dirname) (take k names) ∧
    length (entries (cron s')) = length (entries (cron s)) + k ∧
    (Forall (valid dirname) (take i names) →
       k = i ∧ err = fileError (Join dirname f) perr) ∧
    ∀ tr w, exec (boot s') tr = Some w →
      Forall (from_jobs (Job <$> entries (cron s'))) (goroutines w).
Proof.
  intros Hdir Hi Hread Hlen Hparse.
  assert (Hbad : readJob dirname f = Err (fileError (Join dirname f) perr)).
  { unfold readJob. rewrite Hread. case_bool_decide; [done |].
    by rewrite Hparse. }
  unfold ReadFiles. rewrite Hdir.
  destruct (readLoop dirname names s) as [s' err] eqn:Hloop.
  destruct (readLoop_outcome _ _ _ _ _ Hloop)
    as (k & Hjobs & Hlength & Hvalid & Herr & _).
  assert (Hki : k ≤ i).
  { destruct (decide (k ≤ i)) as [| Hgt]; [done |].
    rewrite Forall_forall in Hvalid.
    destruct (Hvalid f) as [j Hj]; [| congruence].
    apply (list_elem_of_lookup_2 _ i). rewrite lookup_take_lt by lia. done. }
  destruct err as [e|].
  - destruct Herr as (fk & Hk & Hfk).
    exists s', e, k. do 4 (split; [done |]). split.
    + intros Hbefore. destruct (decide (k = i)) as [-> | Hne];
        [split; congruence |].
      rewrite Forall_forall in Hbefore.
      destruct (Hbefore fk) as [j Hj]; [| congruence].
      apply (list_elem_of_lookup_2 _ k). rewrite lookup_take_lt by lia. done.
    + intros tr w Hex.
      pose proof (exec_entries _ _ _ Hex) as Hent. simpl in Hent.
      rewrite <- Hent. apply (exec_from_jobs _ _ _ Hex). constructor.
  - subst k. apply lookup_lt_Some in Hi. lia.
Qed.



Lemma first_newline_unique (l1 l2 r1 r2 : bytes) x :
  l1 ++ x :: r1 = l2 ++ x :: r2 → x ∉ l1 → x ∉ l2 → l1 = l2.
Proof.
  revert l2. induction l1 as [|a l1 IH]; intros [|b l2]; simpl.
  - done.
  - intros [= <- _] _ Hno. by apply not_elem_of_cons in Hno as [? _].
  - intros [= -> _] Hno _. by apply not_elem_of_cons in Hno as [? _].
  - intros [= -> Heq] [_ H1]%not_elem_of_cons [_ H2]%not_elem_of_cons.
    f_equal. by apply IH.
Qed.

(** C9. [ReadFiles] turns a file away with the "Cron spec ... was not
    found" error unless its first line holds the marker [cron:] and ends
    in a newline; so it does for a file with no newline at all and for a
    file whose first line, newline-terminated, has no marker (the marker
    may well stand on a later line). The file is reached when the files
    before it register. *)
Theorem ReadFiles_marker_first_line s dirname pre f post text :
  ReadDir dirname = Ok (pre ++ f :: post) →
  Forall (valid dirname) pre →
  ReadFile (Join dirname f) = Ok text →
  let rejected :=
    ∃ s', ReadFiles s dirname = (s', Some (notFound (Join dirname f))) in
  (¬ first_line_marked (unstr text) → rejected) ∧
  ("010"%char ∉ unstr text → rejected) ∧
  (∀ line1 rest,
     unstr text = line1 ++ "010"%char :: rest →
     "010"%char ∉ line1 →
     (¬ ∃ a b, line1 = a ++ unstr "cron:" ++ b) →
     rejected).
Proof.
  intros Hdir Hpre Hread rejected.
  assert (Hrej : ¬ first_line_marked (unstr text) → rejected).
  { intros Hno.
    pose proof (readJob_unmarked _ _ _ Hread Hno) as Hbad.
    destruct (ReadFiles_at_failure s _ _ _ _ _ Hdir Hpre Hbad)
      as (s' & Hfiles & _).
    by exists s'. }
  split; [done |]. split.
  - intros Hnl. apply Hrej. intros (before & after & rest & Heq & _).
    apply Hnl. rewrite Heq, !elem_of_app, elem_of_cons. auto.
  - intros line1 rest Heq Hline Hno. apply Hrej.
    intros (before & after & rest' & Heq' & Hfirst).
    apply Hno. exists before, after.
    apply (first_newline_unique _ _ rest rest' "010"%char); [| done | done].
    rewrite <- Heq, Heq'. by rewrite <- !app_assoc.
Qed.

(** *** Claims about firing and reporting *)

(** What [ReadFiles] leaves in a fresh scheduler: the channel of [New],
    and jobs that each come from a file of the directory, named after it
    and holding its whole text. *)
Lemma ReadFiles_New d dirname s err :
  ReadFiles (New d) dirname = (s, err) →
  runs s = make_chan 128 ∧
  ∀ j, j ∈ Job <$> entries (cron s) →
    ∃ names name,
      ReadDir dirname = Ok names ∧ name ∈ names ∧
      ReadFile (Join dirname name) = Ok (content j) ∧
      jobName j = trimExt name ∧
      first_line_marked (unstr (content j)).
Proof.
  unfold ReadFiles. destruct (ReadDir dirname) as [names|e] eqn:Hdir.
  - intros Hloop.
    destruct (readLoop_outcome _ _ _ _ _ Hloop)
      as (k & Hjobs & _ & _ & _ & _ & Hruns & _).
    split; [done |]. intros j Hj. rewrite Hjobs in Hj. simpl in Hj.
    apply list_elem_of_omap in Hj as (name & Hname & Hjob).
    apply jobOf_Some in Hjob as [schedule Hjob].
    apply readJob_Ok in Hjob as (? & ? & ?).
    exists names, name. repeat split; try done.
    by eapply subseteq_take.
  - intros [= <- <-]. split; [done |]. simpl.
    by intros j ?%elem_of_nil.
Qed.

(** What holds after any interleaving from a scheduler whose channel is
    the one of [New]. *)
Lemma reachable s tr w :
  runs s = make_chan 128 →
  exec (boot s) tr = Some w →
  cap (runs (sched w)) = 128 ∧
  length (buf (runs (sched w))) ≤ 128 ∧
  length (goroutines w) = firings tr ∧
  received w ++ buf (runs (sched w)) ≡ₚ sent_runs w ∧
  entries (cron (sched w)) = entries (cron s) ∧
  Forall (from_jobs (Job <$> entries (cron s))) (goroutines w).
Proof.
  intros Hruns Hex.
  pose proof (exec_cap _ _ _ Hex) as Hcap. simpl in Hcap.
  rewrite Hruns in Hcap. simpl in Hcap.
  pose proof (exec_entries _ _ _ Hex) as Hent. simpl in Hent.
  split; [done |]. split; [| split; [| split; [| split; [done |]]]].
  - rewrite <- Hcap.
    apply (exec_invariant
      (λ v, length (buf (runs (sched v))) ≤ cap (runs (sched v)))
      (boot s) tr); [| simpl; rewrite Hruns; simpl; lia | done].
    intros v a v' Hv Hs. by eapply step_buf_bound.
  - by rewrite (exec_goroutines_length _ _ _ Hex).
  - apply (exec_conserves _ _ _ Hex). simpl. by rewrite Hruns.
  - rewrite <- Hent. apply (exec_from_jobs _ _ _ Hex). simpl. constructor.
Qed.

Lemma send_enabled w g r :
  goroutines w !! g = Some (Sending r) →
  panicked w = false →
  closed (runs (sched w)) = false →
  length (buf (runs (sched w))) < cap (runs (sched w)) →
  ∃ w',
    step w (Send g) = Some w' ∧
    buf (runs (sched w')) = buf (runs (sched w)) ++ [r] ∧
    goroutines w' !! g = Some (Sent r) ∧
    panicked w' = false.
Proof.
  intros Hg Hp Hc Hlt. unfold step, runFunc_send. rewrite Hp, Hg, Hc.
  rewrite bool_decide_eq_true_2 by done. eexists. split; [done |]. simpl.
  split; [done |]. split; [| done].
  apply list_lookup_insert_eq. by eapply lookup_lt_Some.
Qed.

Lemma send_blocked w g r :
  goroutines w !! g = Some (Sending r) →
  panicked w = false →
  closed (runs (sched w)) = false →
  length (buf (runs (sched w))) = cap (runs (sched w)) →
  step w (Send g) = None.
Proof.
  intros Hg Hp Hc Hfull. unfold step, runFunc_send. rewrite Hp, Hg, Hc.
  rewrite bool_decide_eq_false_2 by lia. done.
Qed.


Lemma sent_is_done w g r :
  goroutines w !! g = Some (Sent r) →
  step w (Send g) = None ∧ ∀ now, step w (Executed g now) = None.
Proof.
  intros Hg. unfold step, runFunc_send, runFunc_execute. rewrite Hg.
  by destruct (panicked w).
Qed.

(** C10. The statement a firing hands to [Execute] is the whole text of
    the job's file as [ReadFile] gave it, marker line included: the
    driver's next state is [Execute] applied to that text. *)
Theorem Execute_gets_whole_file d dirname s err tr w g now w' :
  ReadFiles (New d) dirname = (s, err) →
  exec (boot s) tr = Some w →
  step w (Executed g now) = Some w' →
  ∃ f start names name,
    goroutines w !! g = Some (Running f start) ∧
    ReadDir dirname = Ok names ∧ name ∈ names ∧
    ReadFile (Join dirname name) = Ok (content f) ∧
    first_line_marked (unstr (content f)) ∧
    driver (sched w') = (Execute (driver (sched w)) (content f)).1.
Proof.
  intros Hread Hex Hstep.
  destruct (ReadFiles_New _ _ _ _ Hread) as [Hruns Hjobs].
  destruct (reachable _ _ _ Hruns Hex) as (_ & _ & _ & _ & _ & Hfrom).
  destruct (executed_inv _ _ _ _ Hstep) as (f & start & Hg & Hd & _).
  pose proof (Forall_lookup_1 _ _ _ _ Hfrom Hg) as Hf. simpl in Hf.
  destruct (Hjobs f Hf) as (names & name & ? & ? & ? & _ & ?).
  by exists f, start, names, name.
Qed.

(** C4, as amended. Along any interleaving, every firing has a goroutine
    of its own, which builds one [Run] (the job's name, i.e. the file name
    without its extension, the error [Execute] returned, the time since the
    start) and sends at most once; the send queues the value when the
    channel is open and has room. What the consumers received plus what is
    queued is what was sent, value for value, so once no firing still owes
    its send and the queue is empty, the consumers have received as many
    values as there were firings. *)
Theorem firings_and_results d dirname s err tr w :
  ReadFiles (New d) dirname = (s, err) →
  exec (boot s) tr = Some w →
  length (goroutines w) = firings tr ∧
  received w ++ buf (runs (sched w)) ≡ₚ sent_runs w ∧
  length (received w) + length (buf (runs (sched w))) + in_flight w
    = firings tr ∧
  (in_flight w = 0 → buf (runs (sched w)) = [] →
     length (received w) = firings tr) ∧
  (∀ g x r, goroutines w !! g = Some x → run_of x = Some r →
     ∃ names name,
       ReadDir dirname = Ok names ∧ name ∈ names ∧ Name r = trimExt name) ∧
  (∀ g now w', step w (Executed g now) = Some w' →
     ∃ f start names name,
       goroutines w !! g = Some (Running f start) ∧
       ReadDir dirname = Ok names ∧ name ∈ names ∧
       ReadFile (Join dirname name) = Ok (content f) ∧
       jobName f = trimExt name ∧
       goroutines w' !! g =
         Some (Sending
                 {| Name := jobName f;
                    Error := (Execute (driver (sched w)) (content f)).2;
                    Duration := (now - start)%Z |})) ∧
  (∀ g r, goroutines w !! g = Some (Sending r) →
     panicked w = false → closed (runs (sched w)) = false →
     length (buf (runs (sched w))) < 128 →
     ∃ w', step w (Send g) = Some w' ∧
       buf (runs (sched w')) = buf (runs (sched w)) ++ [r] ∧
       goroutines w' !! g = Some (Sent r)) ∧
  (∀ g r, goroutines w !! g = Some (Sent r) →
     step w (Send g) = None ∧ ∀ now, step w (Executed g now) = None).
Proof.
  intros Hread Hex.
  destruct (ReadFiles_New _ _ _ _ Hread) as [Hruns Hjobs].
  destruct (reachable _ _ _ Hruns Hex)
    as (Hcap & _ & Hlen & Hperm & _ & Hfrom).
  assert (Hcount : length (received w) + length (buf (runs (sched w)))
                     + in_flight w = firings tr).
  { rewrite <- Hlen, <- (sent_or_owing (goroutines w)).
    fold (in_flight w). fold (sent_runs w).
    rewrite <- Hperm, length_app. lia. }
  split; [done |]. split; [done |]. split; [done |]. split.
  { intros Hfl Hbuf. rewrite Hfl, Hbuf in Hcount. simpl in Hcount. lia. }
  split.
  { intros g x r Hg Hr.
    pose proof (Forall_lookup_1 _ _ _ _ Hfrom Hg) as Hx.
    destruct x as [f start | r' | r']; simplify_eq/=.
    - destruct Hx as (f & Hf & ->).
      destruct (Hjobs f Hf) as (names & name & ? & ? & _ & ? & _).
      by exists names, name.
    - destruct Hx as (f & Hf & ->).
      destruct (Hjobs f Hf) as (names & name & ? & ? & _ & ? & _).
      by exists names, name. }
  split.
  { intros g now w' Hstep.
    destruct (executed_inv _ _ _ _ Hstep) as (f & start & Hg & _ & Hg').
    pose proof (Forall_lookup_1 _ _ _ _ Hfrom Hg) as Hf. simpl in Hf.
    destruct (Hjobs f Hf) as (names & name & ? & ? & ? & ? & _).
    by exists f, start, names, name. }
  split.
  { intros g r Hg Hp Hc Hroom. rewrite <- Hcap in Hroom.
    destruct (send_enabled _ _ _ Hg Hp Hc Hroom) as (w' & ? & ? & ? & _).
    by exists w'. }
  intros g r Hg. by eapply sent_is_done.
Qed.

(** C5. The error [Execute] returns goes into the [Run] as it is, nil for
    nil and the very value otherwise, and that [Run] stays the goroutine's:
    later it is either still waiting to be sent or was sent and is with
    the consumers or in the queue. *)
Theorem run_error_verbatim d dirname s err tr w g f start now :
  ReadFiles (New d) dirname = (s, err) →
  exec (boot s) tr = Some w →
  panicked w = false →
  goroutines w !! g = Some (Running f start) →
  ∃ w1 r,
    step w (Executed g now) = Some w1 ∧
    goroutines w1 !! g = Some (Sending r) ∧
    Error r = (Execute (driver (sched w)) (content f)).2 ∧
    ∀ tr' w2, exec w1 tr' = Some w2 →
      goroutines w2 !! g = Some (Sending r) ∨
      (goroutines w2 !! g = Some (Sent r) ∧
       r ∈ received w2 ++ buf (runs (sched w2))).
Proof.
  intros Hread Hex Hp Hg.
  destruct (ReadFiles_New _ _ _ _ Hread) as [Hruns _].
  destruct (executed_enabled w g f start now Hp Hg) as [w1 Hstep].
  destruct (executed_inv _ _ _ _ Hstep) as (f' & start' & Hg1 & _ & Hsending).
  simplify_eq. eexists w1, _. split; [done |]. split; [done |].
  split; [done |]. intros tr' w2 Hex2.
  destruct (exec_run_stable _ _ _ g _ _ Hex2 Hsending eq_refl)
    as (x & Hx & Hrun).
  destruct x as [| r' | r']; simplify_eq/=; [by left |]. right.
  split; [done |].
  assert (Hall : exec (boot s) (tr ++ Executed g now :: tr') = Some w2).
  { apply exec_app. exists w. split; [done |]. apply exec_cons. by exists w1. }
  destruct (reachable _ _ _ Hruns Hall) as (_ & _ & _ & Hperm & _).
  rewrite Hperm. apply list_elem_of_omap. eexists (Sent _).
  split; [| done]. by eapply list_elem_of_lookup_2.
Qed.


Lemma line_shape r :
  line r =
  "Running " +:+ Name r +:+ ": " +:+
    match Error r with
    | None => "OK"
    | Some e => "error=" +:+ e
    end +:+ newline.
Proof.
  unfold line, status. destruct (Error r); [| done].
  by rewrite append_assoc.
Qed.

Lemma exited_is_done w l :
  loggers w !! l = Some Exited →
  step w (Receive l) = None ∧ step w (PrintName l) = None ∧
  step w (PrintStatus l) = None.
Proof.
  intros Hl.
  unfold step, logger_receive, logger_print_name, logger_print_status.
  rewrite Hl. by destruct (panicked w).
Qed.

(** C7. [Start] starts one more consumer, waiting at the receive. A
    consumer takes the queued values oldest first and writes for each one
    the line "Running <name>: OK" or "Running <name>: error=<text>"; on an
    empty queue it returns when the channel is closed and waits while it
    is open; having returned it does nothing more. *)
Theorem logger_prints_each_run w l rs :
  panicked w = false →
  loggers w !! l = Some Idle →
  buf (runs (sched w)) = rs →
  (∃ w1, step w CallStart = Some w1 ∧
     loggers w1 = loggers w ++ [Idle] ∧
     running (cron (sched w1)) = true) ∧
  (∃ w',
     exec w (consume l (length rs)) = Some w' ∧
     stdout w' = stdout w +:+ lines rs ∧
     received w' = received w ++ rs ∧
     buf (runs (sched w')) = [] ∧
     (closed (runs (sched w)) = false → step w' (Receive l) = None) ∧
     (closed (runs (sched w)) = true →
        ∃ w'', step w' (Receive l) = Some w'' ∧
          loggers w'' !! l = Some Exited ∧
          stdout w'' = stdout w' ∧
          step w'' (Receive l) = None)) ∧
  lines [] = "" ∧
  (∀ r rest, lines (r :: rest) = line r +:+ lines rest) ∧
  (∀ r, line r =
     "Running " +:+ Name r +:+ ": " +:+
       match Error r with
       | None => "OK"
       | Some e => "error=" +:+ e
       end +:+ newline).
Proof.
  intros Hp Hl Hb. split; [| split; [| split; [done | split; [done |]]]].
  - unfold step. rewrite Hp. by eexists.
  - destruct (consume_drains rs w l [] Hp Hl)
      as (w' & Hex & Hout & Hrec & Hbuf & Hl' & Hp' & _ & Hc');
      [by rewrite app_nil_r |].
    exists w'. do 4 (split; [done |]). split.
    + intros Hc. unfold step, logger_receive.
      by rewrite Hp', Hl', Hbuf, Hc', Hc.
    + intros Hc. eexists. split.
      { unfold step, logger_receive. by rewrite Hp', Hl', Hbuf, Hc', Hc. }
      simpl. split; [| split; [done |]].
      * apply list_lookup_insert_eq. by eapply lookup_lt_Some.
      * apply exited_is_done. simpl. apply list_lookup_insert_eq.
        by eapply lookup_lt_Some.
  - apply line_shape.
Qed.

(** *** Claims about [Stop] *)

Ltac untouched_cases Hg Hl :=
  try done; try congruence;
  try match goal with
      | Hx : goroutines _ !! _ = Some _ |- _ => by rewrite Hg in Hx
      | Hx : loggers _ !! _ = Some (Got _) |- _ =>
          by destruct (Forall_lookup_1 _ _ _ _ Hl Hx)
      | Hx : loggers _ !! _ = Some (Named _) |- _ =>
          by destruct (Forall_lookup_1 _ _ _ _ Hl Hx)
      end.

Lemma step_before_Stop w a w' :
  untouched w → closed (runs (sched w)) = false →
  is_fire a = false → a ≠ CallStop →
  step w a = Some w' →
  untouched w' ∧ closed (runs (sched w')) = false.
Proof.
  unfold untouched. intros (Hg & Hb & Hr & Ho & Hp & Hl) Hc Hfire Hstop H.
  step_inv H; untouched_cases Hg Hl.
  repeat split; try done. apply Forall_app. split; [done |].
  constructor; [by left | done].
Qed.

Lemma step_after_Stop w a w' :
  untouched w → running (cron (sched w)) = false →
  is_api a = false →
  step w a = Some w' →
  untouched w' ∧ running (cron (sched w')) = false ∧
  closed (runs (sched w')) = closed (runs (sched w)).
Proof.
  unfold untouched. intros (Hg & Hb & Hr & Ho & Hp & Hl) Hrun Hapi H.
  step_inv H; untouched_cases Hg Hl.
  repeat split; try done. apply Forall_insert; [done | by right].
Qed.

Lemma exec_before_Stop tr : ∀ w w',
  untouched w → closed (runs (sched w)) = false →
  Forall (λ a, is_fire a = false ∧ a ≠ CallStop) tr →
  exec w tr = Some w' →
  untouched w' ∧ closed (runs (sched w')) = false.
Proof.
  induction tr as [|a tr IH]; intros w w' Hu Hc Hall.
  - by intros [= <-].
  - intros (w1 & H1 & Htr)%exec_cons.
    apply Forall_cons in Hall as [[Hfire Hstop] Hall].
    destruct (step_before_Stop _ _ _ Hu Hc Hfire Hstop H1) as [Hu1 Hc1].
    by apply (IH w1).
Qed.

Lemma exec_after_Stop tr : ∀ w w',
  untouched w → running (cron (sched w)) = false →
  Forall (λ a, is_api a = false) tr →
  exec w tr = Some w' →
  untouched w' ∧ closed (runs (sched w')) = closed (runs (sched w)).
Proof.
  induction tr as [|a tr IH]; intros w w' Hu Hrun Hall.
  - by intros [= <-].
  - intros (w1 & H1 & Htr)%exec_cons.
    apply Forall_cons in Hall as [Hapi Hall].
    destruct (step_after_Stop _ _ _ Hu Hrun Hapi H1) as (Hu1 & Hrun1 & Hc1).
    rewrite <- Hc1. by apply (IH w1).
Qed.

Lemma Stop_step w :
  panicked w = false →
  step w CallStop =
  Some (if closed (runs (sched w))
        then panic (set_sched w (with_cron (sched w)
                                   (cron_Stop (cron (sched w)))))
        else set_runs (set_sched w (with_cron (sched w)
                                      (cron_Stop (cron (sched w)))))
               (close (runs (sched w)))).
Proof.
  intros Hp. unfold step, Stop. rewrite Hp. simpl.
  by destruct (closed (runs (sched w))).
Qed.

(** C8, as amended. [Stop] halts the scheduler and closes the channel at
    once, without waiting for executions in flight; a [Stop] on the closed
    channel does not close it again (it panics). When no execution is in
    flight as [Stop] is called, nothing is written to the closed channel
    afterwards: no goroutine is added and the process does not panic, as
    long as the scheduler is not started again. In particular, when [Stop]
    comes before any job has fired, no [Run] is ever received, queued or
    printed, and nothing panics. *)
Theorem Stop_with_nothing_in_flight d dirname s err pre post w :
  ReadFiles (New d) dirname = (s, err) →
  Forall (λ a, is_fire a = false ∧ a ≠ CallStop) pre →
  Forall (λ a, is_api a = false) post →
  exec (boot s) (pre ++ CallStop :: post) = Some w →
  (panicked w = false ∧ closed (runs (sched w)) = true ∧
   goroutines w = [] ∧ received w = [] ∧ buf (runs (sched w)) = [] ∧
   stdout w = "") ∧
  (∀ v, panicked v = false → closed (runs (sched v)) = false →
     in_flight v = 0 →
     ∃ v1, step v CallStop = Some v1 ∧
       closed (runs (sched v1)) = true ∧
       running (cron (sched v1)) = false ∧
       panicked v1 = false ∧
       ∀ tr v2, Forall (λ a, is_api a = false) tr →
         exec v1 tr = Some v2 →
         panicked v2 = false ∧ goroutines v2 = goroutines v) ∧
  (∀ v v', closed (runs (sched v)) = true →
     step v CallStop = Some v' → panicked v' = true).
Proof.
  intros Hread Hpre Hpost Hex.
  destruct (ReadFiles_New _ _ _ _ Hread) as [Hruns _].
  split; [| split].
  - apply exec_app in Hex as (w0 & Hex0 & (w1 & Hstop & Hex1)%exec_cons).
    assert (Hboot : untouched (boot s) ∧ closed (runs (sched (boot s))) = false).
    { unfold untouched. simpl. rewrite Hruns. by repeat split. }
    destruct Hboot as [Hu Hc].
    destruct (exec_before_Stop _ _ _ Hu Hc Hpre Hex0) as [Hu0 Hc0].
    pose proof Hu0 as (Hg0 & Hb0 & Hr0 & Ho0 & Hp0 & Hl0).
    rewrite (Stop_step _ Hp0), Hc0 in Hstop. injection Hstop as <-.
    match type of Hex1 with exec ?v _ = _ =>
      assert (Hu1 : untouched v) by done;
      destruct (exec_after_Stop _ _ _ Hu1 eq_refl Hpost Hex1)
        as [(? & ? & ? & ? & ? & _) Hcw]
    end.
    by rewrite Hcw.
  - intros v Hp Hc Hfl. rewrite (Stop_step _ Hp), Hc. eexists.
    split; [done |]. do 3 (split; [done |]). intros tr v2 Hall Hex2.
    match type of Hex2 with exec ?v1 _ = _ =>
      assert (Hq : quiet v1) by done
    end.
    by destruct (exec_quiet _ _ _ Hall Hq Hex2) as ((? & _) & ? & _).
  - intros v v' Hc H. step_inv H; first [done | congruence].
Qed.

(* ===================================================================== *)
(** ** Further properties of the package *)
(* ===================================================================== *)

(** *** What [cronRE] matches and extracts *)

Lemma matchStar_split {R} p pos s (k : nat → bytes → option R) r :
  matchStar p pos s k = Some r →
  ∃ l s', s = l ++ s' ∧ Forall (λ c, p c = true) l ∧
    k (pos + length l) s' = Some r.
Proof.
  revert pos. induction s as [|c s IH]; intros pos; simpl.
  - intros Hk. exists [], []. by rewrite Nat.add_0_r.
  - destruct (p c) eqn:Hp.
    + destruct (matchStar p (S pos) s k) eqn:Hm.
      * intros [= <-]. destruct (IH _ Hm) as (l & s' & -> & Hall & Hk).
        exists (c :: l), s'. simpl. rewrite Nat.add_succ_r.
        split; [done |]. split; [by constructor | done].
      * intros Hk. exists [], (c :: s). by rewrite Nat.add_0_r.
    + intros Hk. exists [], (c :: s). by rewrite Nat.add_0_r.
Qed.

(** The longest run wins when the rest matches after it. *)
Lemma matchStar_longest {R} p pos l s' (k : nat → bytes → option R) r :
  Forall (λ c, p c = true) l →
  (∀ c s'', s' = c :: s'' → p c = false) →
  k (pos + length l) s' = Some r →
  matchStar p pos (l ++ s') k = Some r.
Proof.
  revert pos. induction l as [|a l IH]; intros pos Hall Hstop Hk; simpl.
  - rewrite Nat.add_0_r in Hk. destruct s' as [|c s'']; simpl; [done |].
    by rewrite (Hstop c s'' eq_refl).
  - apply Forall_cons in Hall as [-> Hall].
    rewrite (IH (S pos)); [done | done | done |].
    simpl in Hk. by rewrite Nat.add_succ_r in Hk.
Qed.

(** A shorter run is taken when every longer one fails. *)
Lemma matchStar_falls_back {R} p pos l c s' (k : nat → bytes → option R) r :
  Forall (λ c, p c = true) l →
  p c = true →
  matchStar p (S (pos + length l)) s' k = None →
  k (pos + length l) (c :: s') = Some r →
  matchStar p pos (l ++ c :: s') k = Some r.
Proof.
  revert pos. induction l as [|a l IH]; intros pos Hall Hc Hlater Hk; simpl.
  - rewrite Nat.add_0_r in Hlater, Hk. by rewrite Hc, Hlater.
  - apply Forall_cons in Hall as [-> Hall].
    simpl in Hlater, Hk. rewrite Nat.add_succ_r in Hlater, Hk.
    by rewrite (IH (S pos)).
Qed.

Lemma matchStar_None {R} p pos s (k : nat → bytes → option R) :
  (∀ l s' pos', s = l ++ s' → Forall (λ c, p c = true) l → k pos' s' = None) →
  matchStar p pos s k = None.
Proof.
  revert pos. induction s as [|c s IH]; intros pos Hk; simpl.
  - by apply (Hk [] []).
  - destruct (p c) eqn:Hc; [| by apply (Hk [] (c :: s))].
    rewrite (IH (S pos)); [by apply (Hk [] (c :: s)) |].
    intros l s' pos' -> Hall. apply (Hk (c :: l) s'); [done |].
    by constructor.
Qed.

Lemma matchLit_here {R} l pos s' (k : nat → bytes → option R) :
  matchLit l pos (l ++ s') k = k (pos + length l) s'.
Proof.
  revert pos. induction l as [|a l IH]; intros pos; simpl.
  - by rewrite Nat.add_0_r.
  - rewrite decide_True by done. by rewrite IH, Nat.add_succ_r.
Qed.

Lemma perl_space_not_colon ws :
  Forall (λ c, perl_space c = true) ws → ":"%char ∉ ws.
Proof.
  intros Hall Hin. rewrite Forall_forall in Hall. by specialize (Hall _ Hin).
Qed.

(** Every match of [cronRE] reads: text without newline, the marker,
    white space, the group (no newline inside), a newline. *)
Lemma cronRE_matchAt_shape pos s m :
  matchAt cronRE pos s = Some m →
  ∃ before ws spec rest,
    s = before ++ unstr "cron:" ++ ws ++ spec ++ "010"%char :: rest ∧
    Forall (λ c, dot c = true) before ∧
    ws ≠ [] ∧ Forall (λ c, perl_space c = true) ws ∧
    Forall (λ c, dot c = true) spec ∧
    m = [before ++ unstr "cron:" ++ ws ++ spec ++ ["010"%char]; spec].
Proof.
  unfold matchAt, cronRE. cbn [rmatch].
  case_decide as Hpos; [| done]. subst pos. intros H0.
  apply matchStar_split in H0 as (before & s1 & -> & Hbefore & H1).
  apply matchLit_inv in H1 as (s2 & -> & H2).
  destruct s2 as [|c s2]; [done |].
  destruct (perl_space c) eqn:Hc; [| done].
  apply matchStar_split in H2 as (ws & s3 & -> & Hws & H3).
  apply matchStar_split in H3 as (spec & s4 & -> & Hspec & H4).
  apply matchLit_inv in H4 as (rest & -> & H5).
  exists before, (c :: ws), spec, rest.
  split; [done |]. split; [done |]. split; [done |].
  split; [by constructor |]. split; [done |].
  injection H5 as <-. f_equal; [| f_equal].
  - set (whole := before ++ unstr "cron:" ++ (c :: ws) ++ spec ++ ["010"%char]).
    transitivity (take (length whole) (whole ++ rest)).
    + f_equal.
      * unfold whole. rewrite !length_app. simpl. lia.
      * unfold whole. by rewrite <- !app_assoc.
    + apply take_app_length.
  - apply take_app_length'. lia.
Qed.

Lemma str_unstr s : str (unstr s) = s.
Proof. apply String.string_of_list_ascii_of_string. Qed.

Lemma unstr_str l : unstr (str l) = l.
Proof. apply String.list_ascii_of_string_of_list_ascii. Qed.

(** X1. Whenever [cronRE] matches a text, the match starts the text and
    reads: a newline-free prefix, the marker [cron:], at least one white
    space character, the group, a newline. The group, which [ReadFiles]
    takes as the spec, holds no newline. *)
Theorem cronRE_match_shape text :
  FindStringSubmatch cronRE text ≠ [] →
  ∃ before ws spec rest,
    unstr text = before ++ unstr "cron:" ++ ws ++ spec ++ "010"%char :: rest ∧
    ("010"%char ∉ before) ∧
    ws ≠ [] ∧ Forall (λ c, perl_space c = true) ws ∧
    ("010"%char ∉ spec) ∧
    FindStringSubmatch cronRE text =
      [str (before ++ unstr "cron:" ++ ws ++ spec ++ ["010"%char]); str spec].
Proof.
  unfold FindStringSubmatch. rewrite search_unfold.
  destruct (matchAt cronRE 0 (unstr text)) as [m|] eqn:Hm.
  - intros _.
    apply cronRE_matchAt_shape in Hm
      as (before & ws & spec & rest & Heq & Hb & Hne & Hws & Hs & ->).
    exists before, ws, spec, rest.
    split; [done |]. split; [by apply dot_no_newline |].
    split; [done |]. split; [done |]. split; [by apply dot_no_newline | done].
  - destruct (unstr text); [done |]. by rewrite cronRE_search_later.
Qed.

Lemma no_newline_dot l :
  "010"%char ∉ l → Forall (λ c, dot c = true) l.
Proof.
  intros Hno. apply Forall_forall. intros c Hc. unfold dot.
  rewrite bool_decide_eq_false_2; [done |]. by intros ->.
Qed.

(** Behind the marker of a line whose rest holds no colon, no second
    marker starts before the end of the line. *)
Lemma no_later_marker (line : bytes) rest l t :
  ":"%char ∉ line → "010"%char ∉ line →
  Forall (λ c, dot c = true) l →
  unstr "ron:" ++ line ++ "010"%char :: rest = l ++ unstr "cron:" ++ t →
  False.
Proof.
  intros Hcolon Hnl Hl Heq. apply dot_no_newline in Hl.
  assert (Hlen : length l < length line).
  { assert (Hat : (unstr "ron:" ++ line ++ "010"%char :: rest)
                    !! (4 + length line) = Some "010"%char).
    { rewrite lookup_app_r by (simpl; lia).
      replace (4 + length line - length (unstr "ron:")) with (length line)
        by (simpl; lia).
      by rewrite list_lookup_middle. }
    rewrite Heq in Hat.
    destruct (decide (4 + length line < length l)) as [Hlt | Hge].
    { rewrite lookup_app_l in Hat by done.
      by apply list_elem_of_lookup_2 in Hat. }
    rewrite lookup_app_r in Hat by lia.
    destruct (decide (4 + length line - length l < 5)) as [Hin | Hout];
      [| lia].
    rewrite lookup_app_l in Hat by (simpl; lia).
    apply list_elem_of_lookup_2 in Hat. cbn in Hat.
    repeat (apply elem_of_cons in Hat as [Hat | Hat]; [discriminate |]).
    by apply elem_of_nil in Hat. }
  assert (Hat : (l ++ unstr "cron:" ++ t) !! (length l + 4) = Some ":"%char).
  { rewrite lookup_app_r by lia.
    replace (length l + 4 - length l) with 4 by lia. done. }
  rewrite <- Heq in Hat.
  rewrite lookup_app_r in Hat by (simpl; lia).
  replace (length l + 4 - length (unstr "ron:")) with (length l) in Hat
    by (simpl; lia).
  rewrite lookup_app_l in Hat by done.
  by apply list_elem_of_lookup_2 in Hat.
Qed.

(** X2. On a text whose first line is a newline-free prefix, the marker
    [cron:], blanks, and a spec that starts with a non-blank and holds no
    colon, [cronRE] matches that whole line, newline included, and the
    group is the spec up to the end of the line (trailing blanks
    included). Earlier markers in the prefix do not matter: the last one
    counts. *)
Theorem cronRE_extracts_spec before ws spec rest :
  "010"%char ∉ before →
  ws ≠ [] →
  Forall (λ c, perl_space c = true) ws →
  "010"%char ∉ ws →
  (∃ c spec', spec = c :: spec' ∧ perl_space c = false) →
  "010"%char ∉ spec →
  ":"%char ∉ spec →
  FindStringSubmatch cronRE
    (str (before ++ unstr "cron:" ++ ws ++ spec ++ "010"%char :: rest)) =
  [str (before ++ unstr "cron:" ++ ws ++ spec ++ ["010"%char]); str spec].
Proof.
  intros Hbefore Hne Hws Hwsnl (c0 & spec' & Hspec0 & Hc0) Hspecnl Hcolon.
  destruct ws as [|c ws]; [done |].
  apply Forall_cons in Hws as [Hc Hws].
  unfold FindStringSubmatch. rewrite unstr_str, search_unfold.
  set (whole := before ++ unstr "cron:" ++ (c :: ws) ++ spec ++ ["010"%char]).
  assert (Hm : matchAt cronRE 0
                 (before ++ unstr "cron:" ++ (c :: ws) ++ spec
                    ++ "010"%char :: rest) = Some [whole; spec]);
    [| by rewrite Hm].
  unfold matchAt, cronRE. cbn [rmatch]. rewrite decide_True by done.
  change (unstr "cron:" ++ (c :: ws) ++ spec ++ "010"%char :: rest)
    with ("c"%char :: (unstr "ron:" ++ (c :: ws) ++ spec
                         ++ "010"%char :: rest)).
  apply matchStar_falls_back; [by apply no_newline_dot | done | |].
  - apply matchStar_None. intros l t pos' Heq Hl.
    destruct (matchLit (unstr "cron:") pos' t _) eqn:Hlit; [| done].
    apply matchLit_inv in Hlit as (t' & -> & _). exfalso.
    apply (no_later_marker ((c :: ws) ++ spec) rest l t'); try done.
    + rewrite elem_of_app. intros [Hin | Hin]; [| done].
      by apply (perl_space_not_colon (c :: ws)); [constructor |].
    + rewrite elem_of_app. by intros [Hin | Hin].
    + by rewrite <- Heq, <- app_assoc.
  - change ("c"%char :: (unstr "ron:" ++ (c :: ws) ++ spec
                           ++ "010"%char :: rest))
      with (unstr "cron:" ++ (c :: ws) ++ spec ++ "010"%char :: rest).
    rewrite matchLit_here. cbn -[matchStar matchLit take]. rewrite Hc.
    apply matchStar_longest; [done | |].
    { intros x t Heq. rewrite Hspec0 in Heq. by injection Heq as <- _. }
    apply matchStar_longest; [by apply no_newline_dot | |].
    { intros x t Heq. by injection Heq as <- _. }
    change ("010"%char :: rest) with (["010"%char] ++ rest).
    rewrite matchLit_here. f_equal. f_equal; [| f_equal].
    + transitivity (take (length whole) (whole ++ rest)).
      * f_equal.
        -- unfold whole. rewrite !length_app. simpl. lia.
        -- unfold whole. by rewrite <- !app_assoc.
      * apply take_app_length.
    + simpl. apply take_app_length'. lia.
Qed.

(** *** Job names *)

Lemma ext_scan_shape back seen :
  "."%char ∉ seen → "/"%char ∉ seen →
  ext_scan back seen = [] ∨
  ∃ e pre,
    ext_scan back seen = "."%char :: e ∧
    ("."%char ∉ e) ∧ ("/"%char ∉ e) ∧
    reverse back ++ seen = pre ++ "."%char :: e.
Proof.
  revert seen. induction back as [|c back IH]; intros seen Hdot Hslash; simpl.
  - by left.
  - case_decide as Hc1; [by left |]. case_decide as Hc2.
    + right. exists seen, (reverse back). subst c.
      by rewrite reverse_cons, <- app_assoc.
    + destruct (IH (c :: seen)) as [Hnil | (e & pre & He & ? & ? & Heq)].
      * by apply not_elem_of_cons.
      * by apply not_elem_of_cons.
      * by left.
      * right. exists e, pre. rewrite reverse_cons, <- app_assoc. done.
Qed.

Lemma ext_scan_none back seen :
  "."%char ∉ back → ext_scan back seen = [].
Proof.
  revert seen. induction back as [|c back IH]; intros seen Hno; [done |].
  apply not_elem_of_cons in Hno as [Hc Hno]. simpl.
  case_decide; [done |]. rewrite decide_False by done. by apply IH.
Qed.

Lemma TrimSuffix_app pre suffix :
  TrimSuffix (pre ++ suffix) suffix = pre.
Proof.
  unfold TrimSuffix, HasSuffix. rewrite length_app.
  replace (length pre + length suffix - length suffix) with (length pre)
    by lia.
  rewrite bool_decide_eq_true_2 by lia.
  rewrite drop_app_length, bool_decide_eq_true_2 by done. simpl.
  apply take_app_length.
Qed.

(** X3. A name is its job name followed by its extension, and the
    extension [filepath.Ext] finds is either empty or one dot followed by
    text without dot or slash. *)
Theorem name_is_jobName_and_extension (name : bytes) :
  TrimSuffix name (Ext name) ++ Ext name = name ∧
  (Ext name = [] ∨
   ∃ e, Ext name = "."%char :: e ∧ ("."%char ∉ e) ∧ ("/"%char ∉ e)).
Proof.
  unfold Ext.
  destruct (ext_scan_shape (reverse name) [])
    as [Hnil | (e & pre & He & Hdot & Hslash & Heq)];
    [apply not_elem_of_nil | apply not_elem_of_nil | |].
  - rewrite Hnil. split; [| by left].
    rewrite <- (app_nil_r name) at 1. rewrite TrimSuffix_app.
    by rewrite app_nil_r.
  - rewrite He. rewrite reverse_involutive, app_nil_r in Heq.
    split; [| right; by exists e].
    rewrite Heq at 1. by rewrite TrimSuffix_app.
Qed.

Lemma ext_scan_dotfile e seen :
  "."%char ∉ e → "/"%char ∉ e →
  ext_scan (reverse e ++ ["."%char]) seen = "."%char :: e ++ seen.
Proof.
  revert seen. induction e as [|c e IH] using rev_ind; intros seen Hdot Hslash.
  - done.
  - apply not_elem_of_app in Hdot as [Hdot Hc1].
    apply not_elem_of_app in Hslash as [Hslash Hc2].
    rewrite list_elem_of_singleton in Hc1, Hc2.
    rewrite reverse_snoc. simpl.
    rewrite decide_False by done. rewrite decide_False by done.
    rewrite IH by done. by rewrite <- app_assoc.
Qed.

(** X4. The job name of a file: a name without a dot is kept whole; a
    name whose only dot is the first character (a hidden file) gives the
    empty job name. *)
Theorem jobName_without_extension (name : string) :
  ("."%char ∉ unstr name → trimExt name = name) ∧
  (∀ e, unstr name = "."%char :: e → "."%char ∉ e → "/"%char ∉ e →
     trimExt name = "").
Proof.
  unfold trimExt, Ext. split.
  - intros Hno. rewrite ext_scan_none.
    + rewrite <- (app_nil_r (unstr name)) at 1.
      by rewrite TrimSuffix_app, str_unstr.
    + intros Hin. apply Hno. by apply elem_of_reverse.
  - intros e Hname Hdot Hslash.
    rewrite Hname, reverse_cons, ext_scan_dotfile, app_nil_r by done.
    change ("."%char :: e) with ([] ++ "."%char :: e) at 1.
    by rewrite TrimSuffix_app.
Qed.

(** *** More on registration *)

Lemma readLoop_keeps_entries dirname names s s' err :
  readLoop dirname names s = (s', err) →
  entries (cron s) `prefix_of` entries (cron s').
Proof.
  revert s. induction names as [|f names IH]; intros s.
  - by intros [= <- <-].
  - rewrite readLoop_cons.
    destruct (readJob dirname f) as [[schedule j]|e].
    + intros Hloop. apply IH in Hloop. simpl in Hloop.
      etrans; [| exact Hloop]. by apply prefix_app_r.
    + by intros [= <- <-].
Qed.

(** X5. When the directory can be listed, [ReadFiles] returns nil exactly
    when every listed file is valid (readable, marked, with a spec that
    parses); then it has added one job per file, in listing order. An
    empty directory is such a case. *)
Theorem ReadFiles_nil_iff_all_valid s dirname names :
  ReadDir dirname = Ok names →
  ((ReadFiles s dirname).2 = None ↔ Forall (valid dirname) names) ∧
  (Forall (valid dirname) names →
     Job <$> entries (cron (ReadFiles s dirname).1) =
       (Job <$> entries (cron s)) ++ omap (jobOf dirname) names ∧
     length (entries (cron (ReadFiles s dirname).1)) =
       length (entries (cron s)) + length names).
Proof.
  intros Hdir. unfold ReadFiles. rewrite Hdir. split; [split |].
  - destruct (readLoop dirname names s) as [s' err] eqn:Hloop. simpl.
    intros ->.
    destruct (readLoop_outcome _ _ _ _ _ Hloop) as (k & _ & _ & Hall & -> & _).
    by rewrite firstn_all in Hall.
  - intros Hall.
    by destruct (readLoop_valid dirname names s Hall) as (s' & -> & _).
  - intros Hall.
    by destruct (readLoop_valid dirname names s Hall) as (s' & -> & ? & ?).
Qed.

(** X6. [ReadFiles] only adds to the registry: whatever it returns, the
    jobs registered before are still there, in the same places, and the
    driver, the result channel and the running flag are as before. *)
Theorem ReadFiles_only_adds_jobs s dirname :
  entries (cron s) `prefix_of` entries (cron (ReadFiles s dirname).1) ∧
  driver (ReadFiles s dirname).1 = driver s ∧
  runs (ReadFiles s dirname).1 = runs s ∧
  running (cron (ReadFiles s dirname).1) = running (cron s).
Proof.
  unfold ReadFiles. destruct (ReadDir dirname) as [names|e]; [| done].
  destruct (readLoop dirname names s) as [s' err] eqn:Hloop. simpl.
  split; [by eapply readLoop_keeps_entries |].
  by destruct (readLoop_outcome _ _ _ _ _ Hloop) as (k & _ & _ & _ & _ & ? & ? & ?).
Qed.

(** X7. The error [ReadFiles] returns is one of four: the error of
    [ReadDir], as it is; the error of [ReadFile] on a listed file, as it
    is (the path is not added); the "Cron spec ... was not found" message
    with the path of a listed file; or "File <path>: <error>" with the path
    of a listed file and the error of the spec parser on the text
    extracted from it. *)
Theorem ReadFiles_errors s dirname s' err :
  ReadFiles s dirname = (s', Some err) →
  ReadDir dirname = Err err ∨
  ∃ names f,
    ReadDir dirname = Ok names ∧ f ∈ names ∧
    (ReadFile (Join dirname f) = Err err ∨
     (∃ text, ReadFile (Join dirname f) = Ok text ∧
        length (FindStringSubmatch cronRE text) < 2 ∧
        err = notFound (Join dirname f)) ∨
     (∃ text perr, ReadFile (Join dirname f) = Ok text ∧
        Parse (default "" (FindStringSubmatch cronRE text !! 1)) = Err perr ∧
        err = fileError (Join dirname f) perr)).
Proof.
  unfold ReadFiles. destruct (ReadDir dirname) as [names|e] eqn:Hdir.
  - intros Hloop. right.
    destruct (readLoop_outcome _ _ _ _ _ Hloop)
      as (k & _ & _ & _ & (f & Hf & Hbad) & _).
    exists names, f. split; [done |].
    split; [by eapply list_elem_of_lookup_2 |].
    unfold readJob in Hbad.
    destruct (ReadFile (Join dirname f)) as [text|e]; [| left; congruence].
    right. case_bool_decide as Hlen.
    + left. exists text. by injection Hbad as <-.
    + right. destruct (Parse _) as [|perr] eqn:Hparse; [done |].
      exists text, perr. by injection Hbad as <-.
  - intros [= <- <-]. by left.
Qed.

(** *** More on the running scheduler *)

Lemma step_history w a w' :
  step w a = Some w' →
  received w ++ buf (runs (sched w))
    `prefix_of` received w' ++ buf (runs (sched w')).
Proof.
  intros H. step_inv H;
    try match goal with
        | Hb : buf _ = _ |- _ => try rewrite Hb
        end; try done.
  - rewrite app_assoc. by apply prefix_app_r.
  - by rewrite <- app_assoc.
Qed.

(** X8. The result channel is first in, first out, and the consumers'
    record only grows: along any interleaving, the values received so far
    followed by the queued ones stay, in that order, at the front of what
    is received and queued later. *)
Theorem results_keep_their_order w tr w' :
  exec w tr = Some w' →
  received w ++ buf (runs (sched w))
    `prefix_of` received w' ++ buf (runs (sched w')).
Proof.
  revert w. induction tr as [|a tr IH]; intros w.
  - by intros [= <-].
  - intros (w1 & H1 & Htr)%exec_cons.
    etrans; [by eapply step_history | by apply IH].
Qed.

Lemma starts_cons a tr :
  starts (a :: tr) = (if is_start a then 1 else 0) + starts tr.
Proof. unfold starts. rewrite filter_cons. by destruct a. Qed.

Lemma step_loggers_length w a w' :
  step w a = Some w' →
  length (loggers w') = length (loggers w) + (if is_start a then 1 else 0).
Proof.
  intros H. step_inv H; rewrite ?length_insert, ?length_app; simpl; lia.
Qed.

(** X9. Every call of [Start] starts one more [logger] goroutine, also
    when the scheduler is already running, and none is ever removed: the
    number of consumers grows by the number of [Start] calls. *)
Theorem Start_adds_a_logger_each_time w tr w' :
  exec w tr = Some w' →
  length (loggers w') = length (loggers w) + starts tr.
Proof.
  revert w. induction tr as [|a tr IH]; intros w.
  - intros [= <-]. unfold starts. simpl. lia.
  - intros (w1 & H1 & Htr)%exec_cons.
    rewrite (IH _ Htr), (step_loggers_length _ _ _ H1), starts_cons. lia.
Qed.

Lemma step_without_Stop w a w' :
  step w a = Some w' → a ≠ CallStop →
  closed (runs (sched w)) = false →
  closed (runs (sched w')) = false ∧ panicked w' = false.
Proof. intros H Ha Hc. step_inv H; try done; congruence. Qed.

(** X10. As long as [Stop] is not called, the channel stays open and
    nothing panics, whatever [Execute] returns and however the goroutines
    interleave. *)
Theorem no_panic_without_Stop w tr w' :
  panicked w = false →
  closed (runs (sched w)) = false →
  Forall (λ a, a ≠ CallStop) tr →
  exec w tr = Some w' →
  panicked w' = false ∧ closed (runs (sched w')) = false.
Proof.
  revert w. induction tr as [|a tr IH]; intros w Hp Hc Hall.
  - by intros [= <-].
  - intros (w1 & H1 & Htr)%exec_cons.
    apply Forall_cons in Hall as [Ha Hall].
    destruct (step_without_Stop _ _ _ H1 Ha Hc) as [Hc1 Hp1].
    by apply (IH w1).
Qed.

Lemma step_stays_closed w a w' :
  step w a = Some w' →
  closed (runs (sched w)) = true → closed (runs (sched w')) = true.
Proof. intros H Hc. by step_inv H. Qed.

(** X11. Nothing reopens the channel: once it is closed it stays closed
    along every interleaving, [Start] included, and every send reached
    from then on panics without queueing its value. *)
Theorem closed_for_good w tr w' :
  closed (runs (sched w)) = true →
  exec w tr = Some w' →
  closed (runs (sched w')) = true ∧
  ∀ g r, goroutines w' !! g = Some (Sending r) → panicked w' = false →
    step w' (Send g) = Some (panic w').
Proof.
  intros Hc Hex.
  assert (Hc' : closed (runs (sched w')) = true).
  { apply (exec_invariant (λ v, closed (runs (sched v)) = true) w tr);
      [| done | done].
    intros v a v' Hv Hs. by eapply step_stays_closed. }
  split; [done |]. intros g r Hg Hp.
  unfold step, runFunc_send. by rewrite Hp, Hg, Hc'.
Qed.

Lemma step_no_fire w a w' :
  step w a = Some w' → is_fire a = false →
  goroutines w = [] →
  goroutines w' = [] ∧ driver (sched w') = driver (sched w).
Proof.
  intros H Ha Hg. step_inv H; try done;
    match goal with
    | Hx : goroutines w !! _ = Some _ |- _ => by rewrite Hg in Hx
    end.
Qed.

Lemma exec_no_fire tr : ∀ w w',
  Forall (λ a, is_fire a = false) tr →
  goroutines w = [] →
  exec w tr = Some w' →
  goroutines w' = [] ∧ driver (sched w') = driver (sched w).
Proof.
  induction tr as [|a tr IH]; intros w w' Hall Hg.
  - by intros [= <-].
  - intros (w1 & H1 & Htr)%exec_cons.
    apply Forall_cons in Hall as [Ha Hall].
    destruct (step_no_fire _ _ _ H1 Ha Hg) as [Hg1 Hd1].
    rewrite <- Hd1. by apply IH.
Qed.

(** X12. The driver is only called by a firing: along an interleaving in
    which no job fires ([Start], [Stop] and the consumers may run), no
    goroutine of a job exists and the driver is as [New] or [ReadFiles]
    left it. *)
Theorem driver_untouched_without_firing s tr w :
  Forall (λ a, is_fire a = false) tr →
  exec (boot s) tr = Some w →
  goroutines w = [] ∧ driver (sched w) = driver s.
Proof. intros Hall Hex. by apply (exec_no_fire tr (boot s) w). Qed.

(** X13. A send waiting on the full channel is released by one receive:
    after a consumer has taken the oldest value, the waiting goroutine's
    send goes through and its value is the newest in the queue. *)
Theorem one_receive_releases_a_sender w l g r r0 q :
  panicked w = false →
  closed (runs (sched w)) = false →
  loggers w !! l = Some Idle →
  goroutines w !! g = Some (Sending r) →
  buf (runs (sched w)) = r0 :: q →
  length (r0 :: q) = cap (runs (sched w)) →
  step w (Send g) = None ∧
  ∃ w',
    exec w [Receive l; Send g] = Some w' ∧
    received w' = received w ++ [r0] ∧
    buf (runs (sched w')) = q ++ [r] ∧
    goroutines w' !! g = Some (Sent r) ∧
    panicked w' = false.
Proof.
  intros Hp Hc Hl Hg Hb Hfull. split.
  { apply (send_blocked _ _ r); [done | done | done |]. by rewrite Hb. }
  eexists. split.
  { apply exec_cons. eexists. split; [by apply receive_step |].
    apply exec_cons. eexists. split; [| reflexivity].
    unfold step, runFunc_send. simpl. rewrite Hp, Hg, Hc.
    rewrite bool_decide_eq_true_2 by (simpl in Hfull; lia). reflexivity. }
  simpl. do 2 (split; [done |]). split; [| done].
  apply list_lookup_insert_eq. by eapply lookup_lt_Some.
Qed.

Lemma lines_snoc rs r : lines (rs ++ [r]) = lines rs +:+ line r.
Proof.
  induction rs as [|x rs IH]; simpl.
  - by rewrite append_nil_r.
  - by rewrite IH, append_assoc.
Qed.

Ltac single_logger :=
  match goal with
  | Hl : loggers ?w !! ?l = Some _ |- _ =>
      destruct (loggers w) as [|? [|? ?]], l as [|?];
      simplify_eq/=; try lia
  end.

Lemma step_single_logger w a w' :
  step w a = Some w' →
  length (loggers w') ≤ 1 →
  stdout w +:+ pending_all (loggers w) = lines (received w) →
  stdout w' +:+ pending_all (loggers w') = lines (received w').
Proof.
  intros H Hlen Hinv. step_inv H; try done;
    rewrite ?length_insert in Hlen; try single_logger.
  - rewrite length_app in Hlen. simpl in Hlen.
    destruct (loggers w); [done | simpl in Hlen; lia].
  - done.
  - rewrite lines_snoc, <- Hinv. by rewrite !append_nil_r.
  - rewrite <- Hinv. unfold line. by rewrite !append_assoc.
  - rewrite <- Hinv. by rewrite !append_nil_r.
Qed.

(** X14. With [Start] called at most once, standard output is made of
    whole lines, one per received value and in the order of receipt,
    however the job goroutines interleave with the consumer: what is
    written, completed by what the consumer still has to write for the
    value it holds, is the text of the lines of the received values. *)
Theorem output_is_the_lines_received s tr w :
  starts tr ≤ 1 →
  exec (boot s) tr = Some w →
  stdout w +:+ pending_all (loggers w) = lines (received w) ∧
  (Forall (λ c, c = Idle ∨ c = Exited) (loggers w) →
     stdout w = lines (received w)).
Proof.
  intros Hstarts Hex.
  assert (Hinv : length (loggers w) = starts tr ∧
                 stdout w +:+ pending_all (loggers w) = lines (received w)).
  { revert w Hstarts Hex. induction tr as [|a tr IH] using rev_ind;
      intros w Hstarts.
    - by intros [= <-].
    - intros (w1 & Hex1 & (w2 & Hstep & [= <-])%exec_cons)%exec_app.
      assert (Hsplit : starts (tr ++ [a]) =
                       starts tr + (if is_start a then 1 else 0)).
      { unfold starts. rewrite filter_app, length_app. by destruct a. }
      destruct (IH w1) as [Hlen Hinv]; [lia | done |].
      assert (Hlen' : length (loggers w2) = starts (tr ++ [a])).
      { rewrite (step_loggers_length _ _ _ Hstep). lia. }
      split; [done |].
      eapply step_single_logger; [done | lia | done]. }
  destruct Hinv as [_ Hinv]. split; [done |].
  intros Hidle. rewrite <- Hinv.
  assert (pending_all (loggers w) = "") as ->; [| by rewrite append_nil_r].
  induction Hidle as [|c cs [-> | ->] _ IH]; simpl; by rewrite ?IH.
Qed.

End Package.

(* ===================================================================== *)
(** ** The package on the stand-in collaborators *)
(* ===================================================================== *)

Local Abbreviation demoNew := (New (Schedule:=string) ([] : list string)).
Local Abbreviation demoReadFiles :=
  (ReadFiles demoParse demoReadDir demoReadFile demoJoin demoNew).
Local Abbreviation demoValid := (valid demoParse demoReadFile demoJoin).
Local Abbreviation demoReadJob := (readJob demoParse demoReadFile demoJoin).
Local Abbreviation demoJobOf := (jobOf demoParse demoReadFile demoJoin).
Local Abbreviation demoExec := (exec demoExecute).
Local Abbreviation demoStep := (step demoExecute).

(** *** Examples *)

Example Ext_last_dot : str (Ext (unstr "a.tar.gz")) = ".gz".
Proof. by vm_compute. Qed.

Example trimExt_sql : trimExt "nightly.sql" = "nightly".
Proof. by vm_compute. Qed.

Example trimExt_no_dot : trimExt "nightly" = "nightly".
Proof. by vm_compute. Qed.

Example cronRE_first_line :
  FindStringSubmatch cronRE
    ("-- cron: @daily" +:+ newline +:+ "SELECT 1;" +:+ newline)
  = ["-- cron: @daily" +:+ newline; "@daily"].
Proof. by vm_compute. Qed.

(** [\s+] runs over newlines: the marker is on the first line, the spec
    on the second. *)
Example cronRE_spec_on_next_line :
  FindStringSubmatch cronRE
    ("-- cron:" +:+ newline +:+ "@daily" +:+ newline)
  = ["-- cron:" +:+ newline +:+ "@daily" +:+ newline; "@daily"].
Proof. by vm_compute. Qed.

(** The last [cron:] of the first line is the marker: [.*] is greedy. *)
Example cronRE_last_marker :
  FindStringSubmatch cronRE ("# cron: a cron: @hourly" +:+ newline)
  = ["# cron: a cron: @hourly" +:+ newline; "@hourly"].
Proof. by vm_compute. Qed.

Example cronRE_no_space_after_marker :
  FindStringSubmatch cronRE ("-- cron:@daily" +:+ newline) = [].
Proof. by vm_compute. Qed.

(** In [jobs], [a.sql] has no marker and [b.sql] is valid: [ReadFiles]
    returns the error of [a.sql] and registers nothing, [b.sql] included.
    This is what C1 as stated rules out. *)
Lemma ReadFiles_aborts_remaining_files :
  demoReadDir "jobs" = Ok ["a.sql"; "b.sql"] ∧
  demoReadJob "jobs" "b.sql" =
    Ok ("@daily",
        mkRunFunc "b" ("-- cron: @daily" +:+ newline +:+ "SELECT 1;"
                         +:+ newline)) ∧
  demoReadFiles "jobs" = (demoNew, Some (notFound "jobs/a.sql")) ∧
  entries (cron (demoReadFiles "jobs").1) = [].
Proof. by vm_compute. Qed.

Lemma ReadFiles_stops_at_first_failure_witness :
  ∃ s',
    demoReadFiles "bad" =
      (s', Some "File bad/y.sql: unrecognized descriptor: never") ∧
    Job <$> entries (cron s') =
      (Job <$> entries (cron demoNew)) ++ omap (demoJobOf "bad") ["x.sql"] ∧
    length (entries (cron s')) = length (entries (cron demoNew)) + 1 ∧
    ∀ i now, i < length (entries (cron s')) →
      is_Some (demoExec (boot s') [CallStart; Fire i now]).
Proof.
  apply (ReadFiles_stops_at_first_failure demoParse demoExecute demoReadDir
           demoReadFile demoJoin demoNew "bad" ["x.sql"] "y.sql" ["z.sql"]).
  - reflexivity.
  - repeat constructor. eexists. vm_compute. reflexivity.
  - vm_compute. reflexivity.
Defined.

(** In [mix], [y.sql] has a marker and a spec that does not parse, but
    [a.sql], listed before it, has no marker: [ReadFiles] returns the
    error of [a.sql], which does not name [y.sql]. This is what C2 as
    stated rules out. *)
Lemma unparsable_spec_behind_failing_file :
  let text := "-- cron: never" +:+ newline +:+ "SELECT 3;" +:+ newline in
  mixReadDir "mix" = Ok ["a.sql"; "y.sql"] ∧
  mixReadFile (demoJoin "mix" "y.sql") = Ok text ∧
  FindStringSubmatch cronRE text = ["-- cron: never" +:+ newline; "never"] ∧
  demoParse (default "" (FindStringSubmatch cronRE text !! 1))
    = Err "unrecognized descriptor: never" ∧
  ReadFiles demoParse mixReadDir mixReadFile demoJoin demoNew "mix"
    = (demoNew, Some (notFound "mix/a.sql")) ∧
  notFound "mix/a.sql"
    ≠ fileError (demoJoin "mix" "y.sql") "unrecognized descriptor: never".
Proof. by vm_compute. Qed.

Lemma ReadFiles_unparsable_spec_witness :
  ∃ s' err k,
    demoReadFiles "bad" = (s', Some err) ∧
    k ≤ 1 ∧
    Job <$> entries (cron s') =
      (Job <$> entries (cron demoNew)) ++
      omap (demoJobOf "bad") (take k ["x.sql"; "y.sql"; "z.sql"]) ∧
    length (entries (cron s')) = length (entries (cron demoNew)) + k ∧
    (Forall (demoValid "bad") (take 1 ["x.sql"; "y.sql"; "z.sql"]) →
       k = 1 ∧
       err = fileError (demoJoin "bad" "y.sql")
               "unrecognized descriptor: never") ∧
    ∀ tr w, demoExec (boot s') tr = Some w →
      Forall (from_jobs (Job <$> entries (cron s'))) (goroutines w).
Proof.
  apply (ReadFiles_unparsable_spec demoParse demoExecute demoReadDir
           demoReadFile demoJoin demoNew "bad" ["x.sql"; "y.sql"; "z.sql"] 1
           "y.sql" ("-- cron: never" +:+ newline +:+ "SELECT 3;" +:+ newline)).
  - reflexivity.
  - reflexivity.
  - vm_compute. reflexivity.
  - vm_compute. lia.
  - vm_compute. reflexivity.
Defined.



Lemma ReadFiles_marker_first_line_witness :
  let rejected :=
    ∃ s', demoReadFiles "raw" = (s', Some (notFound "raw/late.sql")) in
  let text := "SELECT 5;" +:+ newline +:+ "-- cron: @daily" +:+ newline in
  (¬ first_line_marked (unstr text) → rejected) ∧
  ("010"%char ∉ unstr text → rejected) ∧
  (∀ line1 rest,
     unstr text = line1 ++ "010"%char :: rest →
     "010"%char ∉ line1 →
     (¬ ∃ a b, line1 = a ++ unstr "cron:" ++ b) →
     rejected).
Proof.
  apply (ReadFiles_marker_first_line demoParse demoReadDir demoReadFile
           demoJoin demoNew "raw" [] "late.sql" []).
  - reflexivity.
  - constructor.
  - vm_compute. reflexivity.
Defined.

Example late_marker_rejected :
  demoReadFiles "raw" = (demoNew, Some (notFound "raw/late.sql")).
Proof. by vm_compute. Qed.

Example missing_newline_rejected :
  demoReadFiles "cut" = (demoNew, Some (notFound "cut/nonl.sql")).
Proof. by vm_compute. Qed.

Local Abbreviation dupScheduler := (demoReadFiles "dup").1.
Local Abbreviation dupJob :=
  (mkRunFunc "job" ("-- cron: @daily" +:+ newline +:+ "SELECT 1;"
                      +:+ newline)).

Lemma Execute_gets_whole_file_witness :
  ∃ w w',
    demoExec (boot dupScheduler) [CallStart; Fire 0 10%Z] = Some w ∧
    demoStep w (Executed 0 15%Z) = Some w' ∧
    ∃ f start names name,
      goroutines w !! 0 = Some (Running f start) ∧
      demoReadDir "dup" = Ok names ∧ name ∈ names ∧
      demoReadFile (demoJoin "dup" name) = Ok (content f) ∧
      first_line_marked (unstr (content f)) ∧
      driver (sched w') = (demoExecute (driver (sched w)) (content f)).1.
Proof.
  eexists _, _. split; [vm_compute; reflexivity |].
  split; [vm_compute; reflexivity |].
  apply (Execute_gets_whole_file demoParse demoExecute demoReadDir
           demoReadFile demoJoin [] "dup" dupScheduler None
           [CallStart; Fire 0 10%Z] _ 0 15%Z _);
    vm_compute; reflexivity.
Defined.

(** The scheduler is stopped while the one firing is inside [Execute]:
    the send panics, the process is gone, and of one firing no [Run] was
    received or is queued. This is what C4 as stated rules out. *)
Lemma firing_lost_when_stopped_in_flight :
  ∃ w,
    demoExec (boot dupScheduler)
      [CallStart; Fire 0 10%Z; CallStop; Executed 0 15%Z; Send 0] = Some w ∧
    firings [CallStart; Fire 0 10%Z; CallStop; Executed 0 15%Z; Send 0] = 1 ∧
    received w = [] ∧ buf (runs (sched w)) = [] ∧
    goroutines w = [Sending (mkRun "job" None 5)] ∧
    panicked w = true ∧
    ∀ a, demoStep w a = None.
Proof. eexists. split; [vm_compute; reflexivity |]. by repeat split. Qed.

Local Abbreviation oneRun :=
  [CallStart; Fire 0 10%Z; Executed 0 15%Z; Send 0;
   Receive 0; PrintName 0; PrintStatus 0].

Lemma firings_and_results_witness :
  ∃ w,
    demoExec (boot dupScheduler) oneRun = Some w ∧
    received w = [mkRun "job" None 5] ∧
    stdout w = "Running job: OK" +:+ newline ∧
    length (goroutines w) = firings oneRun ∧
    received w ++ buf (runs (sched w)) ≡ₚ sent_runs w ∧
    length (received w) + length (buf (runs (sched w))) + in_flight w
      = firings oneRun ∧
    (in_flight w = 0 → buf (runs (sched w)) = [] →
       length (received w) = firings oneRun) ∧
    (∀ g x r, goroutines w !! g = Some x → run_of x = Some r →
       ∃ names name,
         demoReadDir "dup" = Ok names ∧ name ∈ names ∧
         Name r = trimExt name) ∧
    (∀ g now w', demoStep w (Executed g now) = Some w' →
       ∃ f start names name,
         goroutines w !! g = Some (Running f start) ∧
         demoReadDir "dup" = Ok names ∧ name ∈ names ∧
         demoReadFile (demoJoin "dup" name) = Ok (content f) ∧
         jobName f = trimExt name ∧
         goroutines w' !! g =
           Some (Sending
                   {| Name := jobName f;
                      Error := (demoExecute (driver (sched w)) (content f)).2;
                      Duration := (now - start)%Z |})) ∧
    (∀ g r, goroutines w !! g = Some (Sending r) →
       panicked w = false → closed (runs (sched w)) = false →
       length (buf (runs (sched w))) < 128 →
       ∃ w', demoStep w (Send g) = Some w' ∧
         buf (runs (sched w')) = buf (runs (sched w)) ++ [r] ∧
         goroutines w' !! g = Some (Sent r)) ∧
    (∀ g r, goroutines w !! g = Some (Sent r) →
       demoStep w (Send g) = None ∧
       ∀ now, demoStep w (Executed g now) = None).
Proof.
  eexists. split; [vm_compute; reflexivity |].
  split; [vm_compute; reflexivity |]. split; [vm_compute; reflexivity |].
  apply (firings_and_results demoParse demoExecute demoReadDir demoReadFile
           demoJoin [] "dup" dupScheduler None oneRun);
    vm_compute; reflexivity.
Defined.

Local Abbreviation badJob :=
  (mkRunFunc "x" ("-- cron: @hourly" +:+ newline +:+ "BOGUS;" +:+ newline)).

Lemma run_error_verbatim_witness :
  ∃ w,
    demoExec (boot (demoReadFiles "bad").1) [CallStart; Fire 0 10%Z]
      = Some w ∧
    (demoExecute (driver (sched w)) (content badJob)).2
      = Some "syntax error" ∧
    ∃ w1 r,
      demoStep w (Executed 0 15%Z) = Some w1 ∧
      goroutines w1 !! 0 = Some (Sending r) ∧
      Error r = (demoExecute (driver (sched w)) (content badJob)).2 ∧
      ∀ tr' w2, demoExec w1 tr' = Some w2 →
        goroutines w2 !! 0 = Some (Sending r) ∨
        (goroutines w2 !! 0 = Some (Sent r) ∧
         r ∈ received w2 ++ buf (runs (sched w2))).
Proof.
  eexists. split; [vm_compute; reflexivity |].
  split; [vm_compute; reflexivity |].
  apply (run_error_verbatim demoParse demoExecute demoReadDir demoReadFile
           demoJoin [] "bad" (demoReadFiles "bad").1
           (Some "File bad/y.sql: unrecognized descriptor: never")
           [CallStart; Fire 0 10%Z] _ 0 badJob 10%Z 15%Z);
    vm_compute; reflexivity.
Defined.


Lemma logger_prints_each_run_witness :
  ∃ w,
    demoExec (boot (demoReadFiles "bad").1)
      [CallStart; Fire 0 10%Z; Fire 0 11%Z; Executed 0 15%Z; Send 0;
       Executed 1 18%Z; Send 1; CallStop] = Some w ∧
    let rs := [mkRun "x" (Some "syntax error") 5;
               mkRun "x" (Some "syntax error") 7] in
    lines rs =
      "Running x: error=syntax error" +:+ newline +:+
      "Running x: error=syntax error" +:+ newline ∧
    (∃ w1, demoStep w CallStart = Some w1 ∧
       loggers w1 = loggers w ++ [Idle] ∧
       running (cron (sched w1)) = true) ∧
    (∃ w',
       demoExec w (consume 0 (length rs)) = Some w' ∧
       stdout w' = stdout w +:+ lines rs ∧
       received w' = received w ++ rs ∧
       buf (runs (sched w')) = [] ∧
       (closed (runs (sched w)) = false → demoStep w' (Receive 0) = None) ∧
       (closed (runs (sched w)) = true →
          ∃ w'', demoStep w' (Receive 0) = Some w'' ∧
            loggers w'' !! 0 = Some Exited ∧
            stdout w'' = stdout w' ∧
            demoStep w'' (Receive 0) = None)) ∧
    lines [] = "" ∧
    (∀ r rest, lines (r :: rest) = line r +:+ lines rest) ∧
    (∀ r, line r =
       "Running " +:+ Name r +:+ ": " +:+
         match Error r with
         | None => "OK"
         | Some e => "error=" +:+ e
         end +:+ newline).
Proof.
  eexists. split; [vm_compute; reflexivity |].
  split; [vm_compute; reflexivity |].
  apply (logger_prints_each_run demoExecute); vm_compute; reflexivity.
Defined.

(** The scheduler is stopped while a firing is inside [Execute]: the
    channel is closed with that execution in flight, and its send, when
    it comes, is a write to the closed channel and panics. This is what C8
    as stated rules out. *)
Lemma Stop_closes_under_running_job :
  ∃ w1 w2,
    demoExec (boot dupScheduler) [CallStart; Fire 0 10%Z; CallStop]
      = Some w1 ∧
    closed (runs (sched w1)) = true ∧
    panicked w1 = false ∧
    goroutines w1 = [Running dupJob 10%Z] ∧
    in_flight w1 = 1 ∧
    demoExec w1 [Executed 0 15%Z; Send 0] = Some w2 ∧
    goroutines w2 = [Sending (mkRun "job" None 5)] ∧
    panicked w2 = true.
Proof.
  eexists _, _. split; [vm_compute; reflexivity |].
  do 4 (split; [vm_compute; reflexivity |]).
  split; [vm_compute; reflexivity |]. by vm_compute.
Qed.

Lemma Stop_with_nothing_in_flight_witness :
  ∃ w,
    demoExec (boot dupScheduler) ([CallStart] ++ CallStop :: [Receive 0])
      = Some w ∧
    loggers w = [Exited] ∧
    (panicked w = false ∧ closed (runs (sched w)) = true ∧
     goroutines w = [] ∧ received w = [] ∧ buf (runs (sched w)) = [] ∧
     stdout w = "") ∧
    (∀ v : World (Schedule:=string) (DB:=list string),
       panicked v = false → closed (runs (sched v)) = false →
       in_flight v = 0 →
       ∃ v1, demoStep v CallStop = Some v1 ∧
         closed (runs (sched v1)) = true ∧
         running (cron (sched v1)) = false ∧
         panicked v1 = false ∧
         ∀ tr v2, Forall (λ a, is_api a = false) tr →
           demoExec v1 tr = Some v2 →
           panicked v2 = false ∧ goroutines v2 = goroutines v) ∧
    (∀ v v' : World (Schedule:=string) (DB:=list string),
       closed (runs (sched v)) = true →
       demoStep v CallStop = Some v' → panicked v' = true).
Proof.
  eexists. split; [vm_compute; reflexivity |].
  split; [vm_compute; reflexivity |].
  apply (Stop_with_nothing_in_flight demoParse demoExecute demoReadDir
           demoReadFile demoJoin [] "dup" dupScheduler None
           [CallStart] [Receive 0]).
  - vm_compute. reflexivity.
  - repeat constructor. discriminate.
  - repeat constructor.
  - vm_compute. reflexivity.
Defined.

(** 129 firings and no consumer at work: the 129th send waits on the
    full channel, and goes through once a consumer has taken a value. *)
Example send_waits_on_full_channel :
  let tr :=
    [CallStart] ++ ((λ _, Fire 0 0%Z) <$> seq 0 129) ++
    ((λ g, Executed g 1%Z) <$> seq 0 129) ++ (Send <$> seq 0 128) in
  ∃ w w',
    demoExec (boot dupScheduler) tr = Some w ∧
    length (buf (runs (sched w))) = 128 ∧
    goroutines w !! 128 = Some (Sending (mkRun "job" None 1)) ∧
    demoStep w (Send 128) = None ∧
    demoExec w [Receive 0; Send 128] = Some w' ∧
    length (buf (runs (sched w'))) = 128 ∧
    goroutines w' !! 128 = Some (Sent (mkRun "job" None 1)).
Proof.
  eexists _, _. split; [vm_compute; reflexivity |].
  do 3 (split; [vm_compute; reflexivity |]).
  split; [vm_compute; reflexivity |]. by vm_compute.
Qed.

(** *** The further properties on the stand-ins *)

Ltac not_in_bytes :=
  let H := fresh in
  intros H; cbn in H;
  repeat (apply elem_of_cons in H as [H | H]; [discriminate |]);
  by apply elem_of_nil in H.

Local Abbreviation dailyText :=
  ("-- cron: @daily" +:+ newline +:+ "SELECT 1;" +:+ newline).

Lemma cronRE_match_shape_witness :
  ∃ before ws spec rest,
    unstr dailyText
      = before ++ unstr "cron:" ++ ws ++ spec ++ "010"%char :: rest ∧
    ("010"%char ∉ before) ∧
    ws ≠ [] ∧ Forall (λ c, perl_space c = true) ws ∧
    ("010"%char ∉ spec) ∧
    FindStringSubmatch cronRE dailyText =
      [str (before ++ unstr "cron:" ++ ws ++ spec ++ ["010"%char]); str spec].
Proof. apply cronRE_match_shape. by vm_compute. Defined.

Lemma cronRE_extracts_spec_witness :
  FindStringSubmatch cronRE
    (str (unstr "# cron: old -- " ++ unstr "cron:" ++ unstr "  "
            ++ unstr "@every 1s " ++ "010"%char :: unstr "SELECT 1;")) =
  [str (unstr "# cron: old -- " ++ unstr "cron:" ++ unstr "  "
          ++ unstr "@every 1s " ++ ["010"%char]);
   str (unstr "@every 1s ")].
Proof.
  apply cronRE_extracts_spec.
  - not_in_bytes.
  - done.
  - by repeat constructor.
  - not_in_bytes.
  - by eexists _, _.
  - not_in_bytes.
  - not_in_bytes.
Defined.

Lemma ReadFiles_nil_iff_all_valid_witness :
  ((demoReadFiles "dup").2 = None
     ↔ Forall (demoValid "dup") ["job.sql"; "job.txt"]) ∧
  (Forall (demoValid "dup") ["job.sql"; "job.txt"] →
     Job <$> entries (cron (demoReadFiles "dup").1) =
       (Job <$> entries (cron demoNew))
         ++ omap (demoJobOf "dup") ["job.sql"; "job.txt"] ∧
     length (entries (cron (demoReadFiles "dup").1)) =
       length (entries (cron demoNew)) + length ["job.sql"; "job.txt"]).
Proof.
  apply (ReadFiles_nil_iff_all_valid demoParse demoReadDir demoReadFile
           demoJoin demoNew "dup" ["job.sql"; "job.txt"]).
  reflexivity.
Defined.

Lemma ReadFiles_errors_witness :
  demoReadDir "bad" = Err "File bad/y.sql: unrecognized descriptor: never" ∨
  ∃ names f,
    demoReadDir "bad" = Ok names ∧ f ∈ names ∧
    (demoReadFile (demoJoin "bad" f)
       = Err "File bad/y.sql: unrecognized descriptor: never" ∨
     (∃ text, demoReadFile (demoJoin "bad" f) = Ok text ∧
        length (FindStringSubmatch cronRE text) < 2 ∧
        "File bad/y.sql: unrecognized descriptor: never"
          = notFound (demoJoin "bad" f)) ∨
     (∃ text perr, demoReadFile (demoJoin "bad" f) = Ok text ∧
        demoParse (default "" (FindStringSubmatch cronRE text !! 1))
          = Err perr ∧
        "File bad/y.sql: unrecognized descriptor: never"
          = fileError (demoJoin "bad" f) perr)).
Proof.
  apply (ReadFiles_errors demoParse demoReadDir demoReadFile demoJoin
           demoNew "bad" (demoReadFiles "bad").1).
  vm_compute. reflexivity.
Defined.

Local Abbreviation twoJobs :=
  [CallStart; Fire 0 10%Z; Fire 1 11%Z; Executed 1 12%Z; Send 1;
   Executed 0 15%Z].

Lemma results_keep_their_order_witness :
  ∃ w w',
    demoExec (boot dupScheduler) twoJobs = Some w ∧
    demoExec w [Send 0; Receive 0; PrintName 0] = Some w' ∧
    received w ++ buf (runs (sched w)) = [mkRun "job" None 1] ∧
    received w' ++ buf (runs (sched w'))
      = [mkRun "job" None 1; mkRun "job" None 5] ∧
    received w ++ buf (runs (sched w))
      `prefix_of` received w' ++ buf (runs (sched w')).
Proof.
  eexists _, _. split; [vm_compute; reflexivity |].
  split; [vm_compute; reflexivity |]. split; [vm_compute; reflexivity |].
  split; [vm_compute; reflexivity |].
  refine (results_keep_their_order demoExecute _
            [Send 0; Receive 0; PrintName 0] _ _).
  vm_compute. reflexivity.
Defined.

Lemma Start_adds_a_logger_each_time_witness :
  ∃ w',
    demoExec (boot dupScheduler) [CallStart; Fire 0 10%Z; CallStart]
      = Some w' ∧
    loggers w' = [Idle; Idle] ∧
    length (loggers w') =
      length (loggers (boot dupScheduler))
        + starts [CallStart; Fire 0 10%Z; CallStart].
Proof.
  eexists. split; [vm_compute; reflexivity |].
  split; [vm_compute; reflexivity |].
  refine (Start_adds_a_logger_each_time demoExecute _
            [CallStart; Fire 0 10%Z; CallStart] _ _).
  vm_compute. reflexivity.
Defined.

Lemma no_panic_without_Stop_witness :
  ∃ w',
    demoExec (boot (demoReadFiles "bad").1)
      [CallStart; Fire 0 10%Z; Executed 0 15%Z; Send 0] = Some w' ∧
    buf (runs (sched w')) = [mkRun "x" (Some "syntax error") 5] ∧
    panicked w' = false ∧ closed (runs (sched w')) = false.
Proof.
  eexists. split; [vm_compute; reflexivity |].
  split; [vm_compute; reflexivity |].
  apply (no_panic_without_Stop demoExecute (boot (demoReadFiles "bad").1)
           [CallStart; Fire 0 10%Z; Executed 0 15%Z; Send 0]).
  - vm_compute. reflexivity.
  - vm_compute. reflexivity.
  - by repeat constructor.
  - vm_compute. reflexivity.
Defined.

Lemma closed_for_good_witness :
  ∃ w w',
    demoExec (boot dupScheduler) [CallStart; CallStop] = Some w ∧
    demoExec w [CallStart; Fire 0 10%Z; Executed 0 15%Z] = Some w' ∧
    goroutines w' !! 0 = Some (Sending (mkRun "job" None 5)) ∧
    closed (runs (sched w')) = true ∧
    ∀ g r, goroutines w' !! g = Some (Sending r) → panicked w' = false →
      demoStep w' (Send g) = Some (panic w').
Proof.
  eexists _, _. split; [vm_compute; reflexivity |].
  match goal with |- exec _ ?v _ = _ ∧ _ => pose (w := v) end.
  split; [vm_compute; reflexivity |]. split; [vm_compute; reflexivity |].
  refine (closed_for_good demoExecute w
            [CallStart; Fire 0 10%Z; Executed 0 15%Z] _ _ _).
  - vm_compute. reflexivity.
  - vm_compute. reflexivity.
Defined.

Lemma driver_untouched_without_firing_witness :
  ∃ w,
    demoExec (boot dupScheduler) [CallStart; CallStop; Receive 0] = Some w ∧
    goroutines w = [] ∧ driver (sched w) = driver dupScheduler.
Proof.
  eexists. split; [vm_compute; reflexivity |].
  apply (driver_untouched_without_firing demoExecute dupScheduler
           [CallStart; CallStop; Receive 0]).
  - by repeat constructor.
  - vm_compute. reflexivity.
Defined.

Lemma output_is_the_lines_received_witness :
  ∃ w,
    demoExec (boot dupScheduler)
      (twoJobs ++ [Receive 0; Send 0; PrintName 0; PrintStatus 0; Receive 0])
      = Some w ∧
    loggers w = [Got (mkRun "job" None 5)] ∧
    stdout w = "Running job: OK" +:+ newline ∧
    stdout w +:+ pending_all (loggers w) = lines (received w) ∧
    (Forall (λ c, c = Idle ∨ c = Exited) (loggers w) →
       stdout w = lines (received w)).
Proof.
  eexists. split; [vm_compute; reflexivity |].
  split; [vm_compute; reflexivity |]. split; [vm_compute; reflexivity |].
  apply (output_is_the_lines_received demoExecute dupScheduler
           (twoJobs ++
              [Receive 0; Send 0; PrintName 0; PrintStatus 0; Receive 0])).
  - vm_compute. lia.
  - vm_compute. reflexivity.
Defined.

Local Abbreviation fullChannel :=
  ([CallStart] ++ ((λ _, Fire 0 0%Z) <$> seq 0 129) ++
   ((λ g, Executed g 1%Z) <$> seq 0 129) ++ (Send <$> seq 0 128)).

Lemma one_receive_releases_a_sender_witness :
  ∃ w,
    demoExec (boot dupScheduler) fullChannel = Some w ∧
    demoStep w (Send 128) = None ∧
    ∃ w',
      demoExec w [Receive 0; Send 128] = Some w' ∧
      received w' = received w ++ [mkRun "job" None 1] ∧
      buf (runs (sched w')) =
        replicate 127 (mkRun "job" None 1) ++ [mkRun "job" None 1] ∧
      goroutines w' !! 128 = Some (Sent (mkRun "job" None 1)) ∧
      panicked w' = false.
Proof.
  eexists. split; [vm_compute; reflexivity |].
  refine (one_receive_releases_a_sender demoExecute _ 0 128
            (mkRun "job" None 1) (mkRun "job" None 1)
            (replicate 127 (mkRun "job" None 1)) _ _ _ _ _ _);
    vm_compute; reflexivity.
Defined.

End Cronjobs.
